(** * DVS event simulator: the per-pixel crossing scan, [update], the
      frame loop of the program with its event batching, and
      [make_camera_msg].

    Source: [src/dvs_simulator_py/dvs_simulator.py].

    Numbers.  The log-intensities, the contrast threshold and the timestamps
    are Python/numpy floats in the source: IEEE binary64 numbers, with every
    operation rounded.  Module [Binary64] has [__init__] and [update] on
    these numbers (primitive floats).  Every property that depends on a
    computed number is stated and proved there: which crossing values the
    scan finds and how many, the timestamps of the events, the values that
    the reference takes, and whether the scan stops.

    The definitions outside this module have rationals ([Q]) in the place of
    the doubles, with [Qeq] ([==]) as equality of computed values.  They are
    used for the properties that do not depend on a rounded result: what
    [update] writes and what it leaves alone, which calls are rejected,
    where a stored reference comes from, the pixels that are skipped, the
    shapes of the arrays, the grouping of the events by pixel, and the
    batching of the main loop.  Lemma [b64_update_returns] gives the
    description of a returning call on binary64 numbers as well.

    Arrays.  A 2-D numpy array is a [shape] and a row-major [data] list;
    [a[v,u]] is [getitem a v u] and fails (IndexError) out of range.
    [.copy()] is the identity on such values: nothing is shared.

    Loops.  [while not all_crossings_found] is [find_crossings], recursive on
    a fuel that counts loop iterations; running out of fuel is the outcome
    [OutOfFuel].  The two [for] loops over [range(n)] are [for_each] over
    [seq 0 n]. *)

From Stdlib Require Import ZArith QArith Qabs Qround Lqa Lia List Bool.
From Stdlib Require Import Sorting.Sorted Sorting.Permutation Floats.
From stdpp Require Import base list.
Import ListNotations.

Local Open Scope Q_scope.

(** * The model *)

(** ** Comparisons of numbers, as booleans *)

Definition Qlt_bool (x y : Q) : bool := negb (Qle_bool y x).

(** ** Arrays *)

Record ndarray := mk_ndarray {
  shape : nat * nat;          (* (rows, columns) *)
  data : list Q               (* row-major *)
}.

Definition shape_eqb (s1 s2 : nat * nat) : bool :=
  Nat.eqb (fst s1) (fst s2) && Nat.eqb (snd s1) (snd s2).

Definition flat_index (a : ndarray) (v u : nat) : nat :=
  (v * snd (shape a) + u)%nat.

(** [a[v,u]]: [None] stands for IndexError. *)
Definition getitem (a : ndarray) (v u : nat) : option Q :=
  if Nat.ltb v (fst (shape a)) && Nat.ltb u (snd (shape a))
  then data a !! flat_index a v u
  else None.

(** [a[v,u] = x], on an index that [getitem] accepts. *)
Definition setitem (a : ndarray) (v u : nat) (x : Q) : ndarray :=
  mk_ndarray (shape a) (<[flat_index a v u := x]> (data a)).

(** ** Events *)

(** [make_event(x, y, ts, pol)]: [ts] is the number of seconds the event's
    [rospy.Time] is built from. *)
Record Event := make_event {
  x : nat;
  y : nat;
  ts : Q;
  polarity : bool
}.

(** ** The simulator *)

Record DvsSimulator := mk_DvsSimulator {
  C : Q;
  height : nat;
  width : nat;
  reference_values : ndarray;
  It_array : ndarray;
  t : Q
}.

Inductive exn := AssertionError | IndexError | OutOfFuel.

Inductive outcome (A : Type) :=
| Returns (a : A)
| Raises (e : exn).
Arguments Returns {A} a.
Arguments Raises {A} e.

(** [DvsSimulator.__init__] *)
Definition init (initial_time : Q) (initial_values : ndarray) (C : Q)
  : outcome DvsSimulator :=
  if negb (Qlt_bool 0 C) then Raises AssertionError else
  if negb (Nat.ltb 0 (fst (shape initial_values))) then Raises AssertionError else
  if negb (Nat.ltb 0 (snd (shape initial_values))) then Raises AssertionError else
  Returns {| C := C;
             height := fst (shape initial_values);
             width := snd (shape initial_values);
             reference_values := initial_values;
             It_array := initial_values;
             t := initial_time |}.

Definition tol : Q := 1 # 1000000.

(** [+1 if It_dt >= It else -1] *)
Definition polarity_of (It It_dt : Q) : Z :=
  if Qle_bool It It_dt then 1%Z else (-1)%Z.

(** The test of one candidate crossing (lines 62-71). *)
Definition is_crossing (polarity : Z) (It It_dt cur_crossing : Q) : bool :=
  if (0 <? polarity)%Z
  then Qlt_bool It cur_crossing && Qle_bool cur_crossing It_dt
  else Qlt_bool cur_crossing It && Qle_bool It_dt cur_crossing.

(** The [while not all_crossings_found] loop: one unit of fuel per
    iteration. *)
Fixpoint find_crossings (fuel : nat) (C It It_dt : Q) (polarity : Z)
    (cur_crossing : Q) (list_crossings : list Q) : option (list Q) :=
  match fuel with
  | O => None
  | S fuel' =>
      let cur_crossing := cur_crossing + inject_Z polarity * C in
      if is_crossing polarity It It_dt cur_crossing
      then find_crossings fuel' C It It_dt polarity cur_crossing
             (list_crossings ++ [cur_crossing])
      else Some list_crossings
  end.

(** [te = self.t + (crossing-It) * delta_t / (It_dt-It)] *)
Definition event_time (t delta_t It It_dt crossing : Q) : Q :=
  t + (crossing - It) * delta_t / (It_dt - It).

Record loop_state := mk_loop_state {
  current_events : list Event;
  refs : ndarray
}.

(** The body of the two [for] loops, for the pixel of column [u] and row [v]
    (lines 46-80). *)
Definition pixel_body (fuel : nat) (self : DvsSimulator) (delta_t : Q)
    (It_dt_array : ndarray) (u v : nat) (ls : loop_state)
  : loop_state * option exn :=
  match getitem (It_array self) v u with
  | None => (ls, Some IndexError)
  | Some It =>
  match getitem It_dt_array v u with
  | None => (ls, Some IndexError)
  | Some It_dt =>
  match getitem (refs ls) v u with
  | None => (ls, Some IndexError)
  | Some previous_crossing =>
      if Qlt_bool tol (Qabs (It - It_dt)) then
        let polarity := polarity_of It It_dt in
        match find_crossings fuel (C self) It It_dt polarity
                previous_crossing [] with
        | None => (ls, Some OutOfFuel)
        | Some list_crossings =>
            let events_for_px :=
              map (fun crossing =>
                     make_event u v
                       (event_time (t self) delta_t It It_dt crossing)
                       (0 <? polarity)%Z)
                  list_crossings in
            let current_events := current_events ls ++ events_for_px in
            match list_crossings with
            | [] => (mk_loop_state current_events (refs ls), None)
            | _ :: _ =>
                (mk_loop_state current_events
                   (setitem (refs ls) v u
                      (List.last list_crossings previous_crossing)),
                 None)
            end
        end
      else (ls, None)
  end end end.

(** [for i in xs: body], stopping at the first exception. *)
Fixpoint for_each {I St : Type} (xs : list I)
    (body : I -> St -> St * option exn) (s : St) : St * option exn :=
  match xs with
  | [] => (s, None)
  | i :: xs' =>
      match body i s with
      | (s', None) => for_each xs' body s'
      | (s', Some e) => (s', Some e)
      end
  end.

Definition pixel_loop (fuel : nat) (self : DvsSimulator) (delta_t : Q)
    (It_dt_array : ndarray) (ls : loop_state) : loop_state * option exn :=
  for_each (seq 0 (width self))
    (fun u => for_each (seq 0 (height self))
                (fun v => pixel_body fuel self delta_t It_dt_array u v))
    ls.

Definition set_reference_values (self : DvsSimulator) (r : ndarray)
  : DvsSimulator :=
  {| C := C self; height := height self; width := width self;
     reference_values := r; It_array := It_array self; t := t self |}.

(** [DvsSimulator.update]: the simulator after the call and what the call
    did.  An exception raised inside the loops leaves the reference values
    written so far. *)
Definition update (fuel : nat) (self : DvsSimulator) (t_dt : Q)
    (It_dt_array : ndarray) : DvsSimulator * outcome (list Event) :=
  if negb (shape_eqb (shape It_dt_array) (shape (It_array self)))
  then (self, Raises AssertionError) else
  let delta_t := t_dt - t self in
  if negb (Qlt_bool 0 delta_t) then (self, Raises AssertionError) else
  match pixel_loop fuel self delta_t It_dt_array
          (mk_loop_state [] (reference_values self)) with
  | (ls, Some e) => (set_reference_values self (refs ls), Raises e)
  | (ls, None) =>
      ({| C := C self; height := height self; width := width self;
          reference_values := refs ls;
          It_array := It_dt_array;
          t := t_dt |},
       Returns (current_events ls))
  end.

(** ** The driver loop: accumulating events and publishing them in batches
    (lines 315-349) *)

(** [sorted(events, key=lambda e: e.ts)]: a stable sort by timestamp. *)
Fixpoint insert_by_ts (e : Event) (l : list Event) : list Event :=
  match l with
  | [] => [e]
  | e' :: l' =>
      if Qle_bool (ts e) (ts e') then e :: e' :: l'
      else e' :: insert_by_ts e l'
  end.

Fixpoint sorted_by_ts (l : list Event) : list Event :=
  match l with
  | [] => []
  | e :: l' => insert_by_ts e (sorted_by_ts l')
  end.

Record EventArray := mk_EventArray {
  stamp : Q;
  ea_width : nat;
  ea_height : nat;
  ea_events : list Event
}.

(** What the event part of the loop reads and writes: the buffer [events],
    [last_pub_event_timestamp], and the messages handed to the publisher and
    written to the bag so far. *)
Record driver_state := mk_driver_state {
  events : list Event;
  last_pub_event_timestamp : Q;
  published : list EventArray;
  bag : list EventArray
}.

(** Lines 336-349, [# publish events]. *)
Definition publish_events (delta_event : Q) (cam_width cam_height : nat)
    (write_to_bag : bool) (timestamp : Q) (d : driver_state) : driver_state :=
  if Qlt_bool delta_event (timestamp - last_pub_event_timestamp d) then
    let events := sorted_by_ts (events d) in
    let event_array :=
      {| stamp := timestamp; ea_width := cam_width; ea_height := cam_height;
         ea_events := events |} in
    {| events := [];
       last_pub_event_timestamp := timestamp;
       published := published d ++ [event_array];
       bag := if write_to_bag then bag d ++ [event_array] else bag d |}
  else d.

(** Lines 315-316 and 336-349: one frame of the loop, given what
    [sim.update] returned for it. *)
Definition frame_events (delta_event : Q) (cam_width cam_height : nat)
    (write_to_bag : bool) (timestamp : Q) (current_events : list Event)
    (d : driver_state) : driver_state :=
  publish_events delta_event cam_width cam_height write_to_bag timestamp
    {| events := events d ++ current_events;
       last_pub_event_timestamp := last_pub_event_timestamp d;
       published := published d;
       bag := bag d |}.

(** ** The main loop (lines 196-211 and 249-349)

    The loop reads one frame per iteration: its timestamp and its
    log-intensity image (what [dataset_utils.safe_log] returns, external).
    Of the image branch (lines 285-311) the model keeps what the loop itself
    decides: whether the branch is entered, which sets
    [last_pub_img_timestamp]; the messages are built and sent by external
    code.  Poses and camera information are external too.  Leaving the loop
    at [rospy.is_shutdown()] is running it on the frames read so far. *)

Record loop_vars := mk_loop_vars {
  sim : DvsSimulator;
  drv : driver_state;
  last_pub_img_timestamp : Q;
  image_slots : list Q       (* the timestamps of the image branch *)
}.

(** Lines 204-211: the simulator and the loop variables before the loop. *)
Definition main_start (init_time : Q) (init_sensor : ndarray) (cp : Q)
  : outcome loop_vars :=
  match init init_time init_sensor cp with
  | Raises e => Raises e
  | Returns sim =>
      Returns (mk_loop_vars sim (mk_driver_state [] init_time [] [])
                 init_time [])
  end.

(** Line 285:
    [timestamp - last_pub_img_timestamp > delta_image or timestamp == init_time] *)
Definition image_due (delta_image init_time last_pub_img_timestamp
    timestamp : Q) : bool :=
  Qlt_bool delta_image (timestamp - last_pub_img_timestamp)
  || Qeq_bool timestamp init_time.

(** One iteration (lines 254-349): the image branch, [sim.update], and the
    events.  An exception of [update] ends the program. *)
Definition loop_body (fuel : nat) (delta_event delta_image : Q)
    (cam_width cam_height : nat) (write_to_bag : bool) (init_time : Q)
    (frame : Q * ndarray) (s : loop_vars) : loop_vars * option exn :=
  let timestamp := fst frame in
  let img := snd frame in
  let due := image_due delta_image init_time (last_pub_img_timestamp s)
               timestamp in
  let last_img := if due then timestamp else last_pub_img_timestamp s in
  let slots := if due then image_slots s ++ [timestamp] else image_slots s in
  match update fuel (sim s) timestamp img with
  | (sim', Returns current_events) =>
      (mk_loop_vars sim'
         (frame_events delta_event cam_width cam_height write_to_bag
            timestamp current_events (drv s))
         last_img slots,
       None)
  | (sim', Raises e) => (mk_loop_vars sim' (drv s) last_img slots, Some e)
  end.

(** [for frame_id in range(1, len(times))] *)
Definition main_loop (fuel : nat) (delta_event delta_image : Q)
    (cam_width cam_height : nat) (write_to_bag : bool) (init_time : Q)
    (frames : list (Q * ndarray)) (s : loop_vars) : loop_vars * option exn :=
  for_each frames
    (loop_body fuel delta_event delta_image cam_width cam_height write_to_bag
       init_time)
    s.

(** ** [make_camera_msg] (lines 88-104) *)

Record Camera := mk_Camera {
  cam_width : nat;
  cam_height : nat;
  focal_length : Q * Q;
  principle_point : Q * Q
}.

Record CameraInfo := mk_CameraInfo {
  info_width : nat;
  info_height : nat;
  K : list Q;
  D : list Q;
  P : list Q
}.

Definition make_camera_msg (cam : Camera) : CameraInfo :=
  let (fx, fy) := focal_length cam in
  let (cx, cy) := principle_point cam in
  {| info_width := cam_width cam;
     info_height := cam_height cam;
     K := [fx; 0; cx;
           0; fy; cy;
           0; 0; 1];
     D := [0; 0; 0; 0];
     P := [fx; 0; cx; 0;
           0; fy; cy; 0;
           0; 0; 1; 0] |}.

(** * Vocabulary of the properties *)

(** The [k]-th candidate of the scan that starts at [cur]. *)
Fixpoint candidate (k : nat) (C : Q) (polarity : Z) (cur : Q) : Q :=
  match k with
  | O => cur
  | S k' => candidate k' C polarity (cur + inject_Z polarity * C)
  end.

Definition candidates (n : nat) (C : Q) (polarity : Z) (cur : Q) : list Q :=
  map (fun k => candidate (S k) C polarity cur) (seq 0 n).

(** The test of a candidate, as the two inequalities it checks. *)
Definition crossing_test (p : Z) (It It_dt c : Q) : Prop :=
  if (0 <? p)%Z then It < c /\ c <= It_dt else c < It /\ It_dt <= c.

(** The pixels in the order the loops visit them: column by column. *)
Definition pixels (self : DvsSimulator) : list (nat * nat) :=
  list_prod (seq 0 (width self)) (seq 0 (height self)).

(** What one pixel contributes: the crossings found for it (lines 52-71),
    its events (lines 73-75) and the reference it stores (lines 79-80). *)
Definition px_crossings (fuel : nat) (C It It_dt ref : Q) : option (list Q) :=
  if Qlt_bool tol (Qabs (It - It_dt))
  then find_crossings fuel C It It_dt (polarity_of It It_dt) ref []
  else Some [].

Definition events_for_px (t delta_t : Q) (u v : nat) (It It_dt : Q)
    (cs : list Q) : list Event :=
  map (fun crossing =>
         make_event u v (event_time t delta_t It It_dt crossing)
           (0 <? polarity_of It It_dt)%Z)
      cs.

Definition store_last (r : ndarray) (v u : nat) (cs : list Q) (ref : Q)
  : ndarray :=
  match cs with
  | [] => r
  | _ :: _ => setitem r v u (List.last cs ref)
  end.

(** The pixel of column [u] and row [v] is read as [It], [It_dt] and [ref]
    (from the reference grid [r]) and its scan finds the crossings [cs]. *)
Definition pixel_run (fuel : nat) (self : DvsSimulator) (A r : ndarray)
    (u v : nat) (It It_dt ref : Q) (cs : list Q) : Prop :=
  getitem (It_array self) v u = Some It /\
  getitem A v u = Some It_dt /\
  getitem r v u = Some ref /\
  px_crossings fuel (C self) It It_dt ref = Some cs.

Definition events_of_pixel (fuel : nat) (self : DvsSimulator) (delta_t : Q)
    (A r : ndarray) (p : nat * nat) : list Event :=
  match getitem (It_array self) (snd p) (fst p),
        getitem A (snd p) (fst p),
        getitem r (snd p) (fst p) with
  | Some It, Some It_dt, Some ref =>
      match px_crossings fuel (C self) It It_dt ref with
      | Some cs => events_for_px (t self) delta_t (fst p) (snd p) It It_dt cs
      | None => []
      end
  | _, _, _ => []
  end.

(** The events of one pixel, taken out of a list of events. *)
Definition events_at (u v : nat) (evs : list Event) : list Event :=
  List.filter (fun e => Nat.eqb (x e) u && Nat.eqb (y e) v) evs.

(** What a call of [update] that returns has done: [self'] is the simulator
    after the call and [evs] the returned events. *)
Record update_post (fuel : nat) (self : DvsSimulator) (t_dt : Q)
    (A : ndarray) (self' : DvsSimulator) (evs : list Event) : Prop := {
  post_shape : shape A = shape (It_array self);
  post_delta : 0 < t_dt - t self;
  post_C : C self' = C self;
  post_height : height self' = height self;
  post_width : width self' = width self;
  post_It : It_array self' = A;
  post_t : t self' = t_dt;
  post_ref_shape :
    shape (reference_values self') = shape (reference_values self);
  post_pixel : forall u v, (u < width self)%nat -> (v < height self)%nat ->
    exists It It_dt ref cs,
      pixel_run fuel self A (reference_values self) u v It It_dt ref cs /\
      getitem (reference_values self') v u = Some (List.last cs ref) /\
      events_at u v evs =
        events_for_px (t self) (t_dt - t self) u v It It_dt cs;
  post_outside : forall u v,
    ~ ((u < width self)%nat /\ (v < height self)%nat) ->
    getitem (reference_values self') v u =
      getitem (reference_values self) v u /\
    events_at u v evs = [];
  post_events :
    evs = flat_map (events_of_pixel fuel self (t_dt - t self) A
                      (reference_values self)) (pixels self)
}.

(** The order of a published batch. *)
Definition ts_le (e1 e2 : Event) : Prop := ts e1 <= ts e2.

(** An array holds as many numbers as its shape says. *)
Definition wf_array (a : ndarray) : Prop :=
  length (data a) = (fst (shape a) * snd (shape a))%nat.

(** What [__init__] establishes and [update] keeps. *)
Definition wf_sim (self : DvsSimulator) : Prop :=
  0 < C self /\
  shape (It_array self) = (height self, width self) /\
  shape (reference_values self) = (height self, width self) /\
  wf_array (It_array self) /\
  wf_array (reference_values self).

(** The events that the calls of [update] return along a run over
    [frames], up to the first call that raises. *)
Fixpoint produced (fuel : nat) (frames : list (Q * ndarray))
    (sim : DvsSimulator) : list Event :=
  match frames with
  | [] => []
  | frame :: frames' =>
      match update fuel sim (fst frame) (snd frame) with
      | (sim', Returns evs) => evs ++ produced fuel frames' sim'
      | (_, Raises _) => []
      end
  end.

(** The events of a list of batches, in the order they were published. *)
Definition batch_events (bs : list EventArray) : list Event :=
  concat (map ea_events bs).

(** Each stamp is more than [delta] after the one before it, the first one
    more than [delta] after [last]. *)
Fixpoint spaced (delta last : Q) (stamps : list Q) : Prop :=
  match stamps with
  | [] => True
  | s :: stamps' => delta < s - last /\ spaced delta s stamps'
  end.

(** What the publishing side keeps from frame to frame: the stamps of the
    batches are spaced, and [last_pub_event_timestamp] is the stamp of the
    last batch. *)
Definition stamps_spaced (delta_event init_time : Q) (d : driver_state) : Prop :=
  spaced delta_event init_time (map stamp (published d)) /\
  last_pub_event_timestamp d = List.last (map stamp (published d)) init_time.

(** What the image branch keeps while no call of [update] raises. *)
Definition images_spaced (delta_image init_time : Q) (s : loop_vars) : Prop :=
  init_time <= t (sim s) /\
  last_pub_img_timestamp s = List.last (image_slots s) init_time /\
  spaced delta_image init_time (image_slots s).

(** * Concrete simulators and frames *)

(** One row, two pixels, [C = 0.15]: the first pixel goes from [0.0] to
    [0.5] between [t = 0] and [t = 1], the second stays at [0.5]. *)
Definition ex_initial : ndarray := mk_ndarray (1%nat, 2%nat) [0; 1 # 2].
Definition ex_frame : ndarray := mk_ndarray (1%nat, 2%nat) [1 # 2; 1 # 2].
Definition ex_sim : DvsSimulator :=
  mk_DvsSimulator (15 # 100) 1 2 ex_initial ex_initial 0.
Definition ex_sim' : DvsSimulator :=
  Eval vm_compute in fst (update 10 ex_sim 1 ex_frame).
Definition ex_events : list Event :=
  Eval vm_compute in
    match snd (update 10 ex_sim 1 ex_frame) with
    | Returns evs => evs
    | Raises _ => []
    end.

(** One pixel, [C = 0.1], starting at [0.0]: the intensity rises to
    [0.0999999], then to [0.1000005] (a change of [6e-7], skipped), then to
    [0.25]. *)
Definition cx4_f0 : ndarray := mk_ndarray (1%nat, 1%nat) [0].
Definition cx4_f1 : ndarray := mk_ndarray (1%nat, 1%nat) [999999 # 10000000].
Definition cx4_f2 : ndarray := mk_ndarray (1%nat, 1%nat) [1000005 # 10000000].
Definition cx4_f3 : ndarray := mk_ndarray (1%nat, 1%nat) [1 # 4].
Definition cx4_s0 : DvsSimulator := mk_DvsSimulator (1 # 10) 1 1 cx4_f0 cx4_f0 0.
Definition cx4_s1 : DvsSimulator := mk_DvsSimulator (1 # 10) 1 1 cx4_f0 cx4_f1 1.
Definition cx4_s2 : DvsSimulator := mk_DvsSimulator (1 # 10) 1 1 cx4_f0 cx4_f2 2.
Definition cx4_s3 : DvsSimulator := mk_DvsSimulator (1 # 10) 1 1 cx4_f0 cx4_f3 3.

(** A run of the main loop: the simulator of [ex_sim] built by the program
    at time 0, then the frame [ex_frame] at time 1 and the first frame again
    at time 2, with publish intervals of half a second. *)
Definition ex_frames : list (Q * ndarray) := [(1, ex_frame); (2, ex_initial)].
Definition ex_start : loop_vars :=
  mk_loop_vars ex_sim (mk_driver_state [] 0 [] []) 0 [].
Definition ex_end : loop_vars :=
  Eval vm_compute in
    fst (main_loop 10 (1 # 2) (1 # 2) 2 1 true 0 ex_frames ex_start).

(** * The simulator on binary64 numbers

    [__init__] and [update], with the scan and the interpolation, on IEEE
    binary64 numbers, which is what Python computes: every sum, difference,
    product and quotient is rounded, and the comparisons are those of
    doubles. *)
Module Binary64.

Local Open Scope float_scope.

Definition float_of_polarity (polarity : Z) : float :=
  if (0 <? polarity)%Z then 1 else -1.

Definition is_crossing (polarity : Z) (It It_dt cur_crossing : float) : bool :=
  if (0 <? polarity)%Z
  then (It <? cur_crossing) && (cur_crossing <=? It_dt)
  else (cur_crossing <? It) && (It_dt <=? cur_crossing).

Fixpoint find_crossings (fuel : nat) (C It It_dt : float) (polarity : Z)
    (cur_crossing : float) (list_crossings : list float)
  : option (list float) :=
  match fuel with
  | O => None
  | S fuel' =>
      let cur_crossing := cur_crossing + float_of_polarity polarity * C in
      if is_crossing polarity It It_dt cur_crossing
      then find_crossings fuel' C It It_dt polarity cur_crossing
             (list_crossings ++ [cur_crossing])
      else Some list_crossings
  end.

Definition event_time (t delta_t It It_dt crossing : float) : float :=
  t + (crossing - It) * delta_t / (It_dt - It).

(** [0.1] is not a binary64 number; this is the nearest one. *)
Definition C_01 : float := 0x1.999999999999ap-4.

(** *** Arrays, events and the simulator on binary64 numbers

    The same definitions as above, on IEEE binary64 numbers with the
    operations of the source, each rounded: [a + b], [a - b], [a * b],
    [a / b], [math.fabs], and the comparisons [<], [<=] of doubles. *)

Record ndarray := mk_ndarray {
  shape : nat * nat;          (* (rows, columns) *)
  data : list float           (* row-major *)
}.

Definition flat_index (a : ndarray) (v u : nat) : nat :=
  (v * snd (shape a) + u)%nat.

Definition getitem (a : ndarray) (v u : nat) : option float :=
  if Nat.ltb v (fst (shape a)) && Nat.ltb u (snd (shape a))
  then data a !! flat_index a v u
  else None.

Definition setitem (a : ndarray) (v u : nat) (x : float) : ndarray :=
  mk_ndarray (shape a) (<[flat_index a v u := x]> (data a)).

Record Event := make_event {
  x : nat;
  y : nat;
  ts : float;
  polarity : bool
}.

Record DvsSimulator := mk_DvsSimulator {
  C : float;
  height : nat;
  width : nat;
  reference_values : ndarray;
  It_array : ndarray;
  t : float
}.

(** [DvsSimulator.__init__] *)
Definition init (initial_time : float) (initial_values : ndarray) (C : float)
  : outcome DvsSimulator :=
  if negb (0 <? C) then Raises AssertionError else
  if negb (Nat.ltb 0 (fst (shape initial_values))) then Raises AssertionError else
  if negb (Nat.ltb 0 (snd (shape initial_values))) then Raises AssertionError else
  Returns {| C := C;
             height := fst (shape initial_values);
             width := snd (shape initial_values);
             reference_values := initial_values;
             It_array := initial_values;
             t := initial_time |}.

(** [tol = 1e-6]: the double nearest to it. *)
Definition tol : float := 0x1.0c6f7a0b5ed8dp-20.

(** [+1 if It_dt >= It else -1] *)
Definition polarity_of (It It_dt : float) : Z :=
  if It <=? It_dt then 1%Z else (-1)%Z.

Record loop_state := mk_loop_state {
  current_events : list Event;
  refs : ndarray
}.

(** Lines 46-80. *)
Definition pixel_body (fuel : nat) (self : DvsSimulator) (delta_t : float)
    (It_dt_array : ndarray) (u v : nat) (ls : loop_state)
  : loop_state * option exn :=
  match getitem (It_array self) v u with
  | None => (ls, Some IndexError)
  | Some It =>
  match getitem It_dt_array v u with
  | None => (ls, Some IndexError)
  | Some It_dt =>
  match getitem (refs ls) v u with
  | None => (ls, Some IndexError)
  | Some previous_crossing =>
      if tol <? abs (It - It_dt) then
        let polarity := polarity_of It It_dt in
        match find_crossings fuel (C self) It It_dt polarity
                previous_crossing [] with
        | None => (ls, Some OutOfFuel)
        | Some list_crossings =>
            let events_for_px :=
              map (fun crossing =>
                     make_event u v
                       (event_time (t self) delta_t It It_dt crossing)
                       (0 <? polarity)%Z)
                  list_crossings in
            let current_events := current_events ls ++ events_for_px in
            match list_crossings with
            | [] => (mk_loop_state current_events (refs ls), None)
            | _ :: _ =>
                (mk_loop_state current_events
                   (setitem (refs ls) v u
                      (List.last list_crossings previous_crossing)),
                 None)
            end
        end
      else (ls, None)
  end end end.

Definition pixel_loop (fuel : nat) (self : DvsSimulator) (delta_t : float)
    (It_dt_array : ndarray) (ls : loop_state) : loop_state * option exn :=
  for_each (seq 0 (width self))
    (fun u => for_each (seq 0 (height self))
                (fun v => pixel_body fuel self delta_t It_dt_array u v))
    ls.

Definition set_reference_values (self : DvsSimulator) (r : ndarray)
  : DvsSimulator :=
  {| C := C self; height := height self; width := width self;
     reference_values := r; It_array := It_array self; t := t self |}.

(** [DvsSimulator.update] *)
Definition update (fuel : nat) (self : DvsSimulator) (t_dt : float)
    (It_dt_array : ndarray) : DvsSimulator * outcome (list Event) :=
  if negb (shape_eqb (shape It_dt_array) (shape (It_array self)))
  then (self, Raises AssertionError) else
  let delta_t := t_dt - t self in
  if negb (0 <? delta_t) then (self, Raises AssertionError) else
  match pixel_loop fuel self delta_t It_dt_array
          (mk_loop_state [] (reference_values self)) with
  | (ls, Some e) => (set_reference_values self (refs ls), Raises e)
  | (ls, None) =>
      ({| C := C self; height := height self; width := width self;
          reference_values := refs ls;
          It_array := It_dt_array;
          t := t_dt |},
       Returns (current_events ls))
  end.

(** *** Vocabulary of the properties on binary64 numbers *)

(** The [k]-th candidate of the scan that starts at [cur]: [polarity * C]
    added [k] times, each sum rounded. *)
Fixpoint candidate (k : nat) (C : float) (polarity : Z) (cur : float) : float :=
  match k with
  | O => cur
  | S k' => candidate k' C polarity (cur + float_of_polarity polarity * C)
  end.

Definition candidates (n : nat) (C : float) (polarity : Z) (cur : float)
  : list float :=
  map (fun k => candidate (S k) C polarity cur) (seq 0 n).

Definition pixels (self : DvsSimulator) : list (nat * nat) :=
  list_prod (seq 0 (width self)) (seq 0 (height self)).

(** What one pixel contributes: the crossings found for it (lines 52-71),
    its events (lines 73-75) and the reference it stores (lines 79-80). *)
Definition px_crossings (fuel : nat) (C It It_dt ref : float)
  : option (list float) :=
  if tol <? abs (It - It_dt)
  then find_crossings fuel C It It_dt (polarity_of It It_dt) ref []
  else Some [].

Definition events_for_px (t delta_t : float) (u v : nat) (It It_dt : float)
    (cs : list float) : list Event :=
  map (fun crossing =>
         make_event u v (event_time t delta_t It It_dt crossing)
           (0 <? polarity_of It It_dt)%Z)
      cs.

Definition store_last (r : ndarray) (v u : nat) (cs : list float) (ref : float)
  : ndarray :=
  match cs with
  | [] => r
  | _ :: _ => setitem r v u (List.last cs ref)
  end.

Definition pixel_run (fuel : nat) (self : DvsSimulator) (A r : ndarray)
    (u v : nat) (It It_dt ref : float) (cs : list float) : Prop :=
  getitem (It_array self) v u = Some It /\
  getitem A v u = Some It_dt /\
  getitem r v u = Some ref /\
  px_crossings fuel (C self) It It_dt ref = Some cs.

Definition events_of_pixel (fuel : nat) (self : DvsSimulator) (delta_t : float)
    (A r : ndarray) (p : nat * nat) : list Event :=
  match getitem (It_array self) (snd p) (fst p),
        getitem A (snd p) (fst p),
        getitem r (snd p) (fst p) with
  | Some It, Some It_dt, Some ref =>
      match px_crossings fuel (C self) It It_dt ref with
      | Some cs => events_for_px (t self) delta_t (fst p) (snd p) It It_dt cs
      | None => []
      end
  | _, _, _ => []
  end.

Definition events_at (u v : nat) (evs : list Event) : list Event :=
  List.filter (fun e => Nat.eqb (x e) u && Nat.eqb (y e) v) evs.

(** What a call of [update] that returns has done. *)
Record update_post (fuel : nat) (self : DvsSimulator) (t_dt : float)
    (A : ndarray) (self' : DvsSimulator) (evs : list Event) : Prop := {
  post_shape : shape A = shape (It_array self);
  post_delta : (0 <? t_dt - t self) = true;
  post_C : C self' = C self;
  post_height : height self' = height self;
  post_width : width self' = width self;
  post_It : It_array self' = A;
  post_t : t self' = t_dt;
  post_pixel : forall u v, (u < width self)%nat -> (v < height self)%nat ->
    exists It It_dt ref cs,
      pixel_run fuel self A (reference_values self) u v It It_dt ref cs /\
      getitem (reference_values self') v u = Some (List.last cs ref) /\
      events_at u v evs =
        events_for_px (t self) (t_dt - t self) u v It It_dt cs;
  post_outside : forall u v,
    ~ ((u < width self)%nat /\ (v < height self)%nat) ->
    getitem (reference_values self') v u =
      getitem (reference_values self) v u /\
    events_at u v evs = [];
  post_events :
    evs = flat_map (events_of_pixel fuel self (t_dt - t self) A
                      (reference_values self)) (pixels self)
}.

(** The exact value of a finite double, as a rational. *)
Definition float_to_Q (f : float) : Q :=
  match Prim2SF f with
  | S754_finite s m e =>
      (((if s then (-1)%Z else 1%Z) * Z.pos m # 1) * (2 # 1) ^ e)%Q
  | _ => 0%Q
  end.

(** [ref] is [initial] after adding [+C] or [-C] some number of times, every
    sum rounded. *)
Inductive reached (C initial : float) : float -> Prop :=
| reached_initial : reached C initial initial
| reached_step ref polarity :
    reached C initial ref ->
    reached C initial (ref + float_of_polarity polarity * C).

(** Every reference value is reached from the initial value of its pixel. *)
Definition on_grid (initial : ndarray) (self : DvsSimulator) : Prop :=
  forall u v i0 ref,
    getitem initial v u = Some i0 ->
    getitem (reference_values self) v u = Some ref ->
    reached (C self) i0 ref.

(** An array holds as many numbers as its shape says. *)
Definition wf_array (a : ndarray) : Prop :=
  length (data a) = (fst (shape a) * snd (shape a))%nat.

(** The shapes that [__init__] establishes and [update] keeps. *)
Definition wf_sim (self : DvsSimulator) : Prop :=
  shape (It_array self) = (height self, width self) /\
  shape (reference_values self) = (height self, width self) /\
  wf_array (It_array self) /\
  wf_array (reference_values self).

(** *** Concrete simulators and frames on binary64 numbers *)

(** A frame of one pixel. *)
Definition frame1 (I : float) : ndarray := mk_ndarray (1%nat, 1%nat) [I].

(** A simulator of one pixel with [C = 0.1]. *)
Definition sim1 (ref It t : float) : DvsSimulator :=
  mk_DvsSimulator C_01 1 1 (frame1 ref) (frame1 It) t.

(** The doubles nearest to [0.7], [0.85], [0.0999999] and [0.1000005]. *)
Definition I_07 : float := 0x1.6666666666666p-1.
Definition I_085 : float := 0x1.b333333333333p-1.
Definition I_00999999 : float := 0x1.99997ec1a6feep-4.
Definition I_01000005 : float := 0x1.999a1fd1569f5p-4.

(** The sums [0.1], [0.1 + 0.1], ... of the scan from [0] with [C = 0.1];
    the eighth prints as [0.7999999999999999]. *)
Definition rise_crossings : list float :=
  [0x1.999999999999ap-4;    (* 0.1 *)
   0x1.999999999999ap-3;    (* 0.2 *)
   0x1.3333333333334p-2;    (* 0.30000000000000004 *)
   0x1.999999999999ap-2;    (* 0.4 *)
   0x1p-1;                  (* 0.5 *)
   0x1.3333333333333p-1;    (* 0.6 *)
   0x1.6666666666666p-1;    (* 0.7 *)
   0x1.9999999999999p-1].   (* 0.7999999999999999 *)

(** The differences [0.5 - 0.1], ... of the scan from [0.5] with [C = 0.1]. *)
Definition dark_crossings : list float :=
  [0x1.999999999999ap-2;    (* 0.4 *)
   0x1.3333333333334p-2;    (* 0.30000000000000004 *)
   0x1.999999999999bp-3;    (* 0.20000000000000004 *)
   0x1.999999999999cp-4;    (* 0.10000000000000003 *)
   0x1p-55].                (* 2.7755575615628914e-17 *)

(** [1e17 + 16], the double that follows [1e17]. *)
Definition t_late : float := 0x1.6345785d8a001p+56.

(** The events of the rise from [0] to [0.7] in one unit of time, of the
    darkening from [0.5] to [0] in one unit of time, and of the same
    darkening from time [1e17] to [1e17 + 16]. *)
Definition rise7_events : list Event :=
  events_for_px 0 1 0 0 0 I_07 (firstn 7 rise_crossings).
Definition dark_events : list Event :=
  events_for_px 0 1 0 0 0.5 0 dark_crossings.
Definition late_events : list Event :=
  events_for_px 1e17 16 0 0 0.5 0 dark_crossings.

End Binary64.

(** * Properties *)

(** ** Comparisons of numbers *)

Lemma Qlt_bool_iff x y : Qlt_bool x y = true <-> x < y.
Proof.
  unfold Qlt_bool. rewrite negb_true_iff, <- not_true_iff_false, Qle_bool_iff.
  split; [apply Qnot_le_lt | apply Qlt_not_le].
Qed.

Lemma Qlt_bool_false x y : Qlt_bool x y = false <-> y <= x.
Proof.
  unfold Qlt_bool. rewrite negb_false_iff. apply Qle_bool_iff.
Qed.

Lemma Qle_bool_false x y : Qle_bool x y = false <-> y < x.
Proof.
  rewrite <- not_true_iff_false, Qle_bool_iff.
  split; [apply Qnot_le_lt | apply Qlt_not_le].
Qed.

(** ** The crossing scan *)

Lemma candidates_S n C p cur :
  candidates (S n) C p cur =
  (cur + inject_Z p * C) :: candidates n C p (cur + inject_Z p * C).
Proof.
  unfold candidates. simpl. f_equal. rewrite <- seq_shift, map_map. reflexivity.
Qed.

Lemma candidate_closed k C p cur :
  candidate k C p cur == cur + inject_Z (Z.of_nat k) * (inject_Z p * C).
Proof.
  revert cur. induction k as [|k IH]; intros cur.
  - simpl. ring.
  - cbn [candidate]. rewrite IH, Nat2Z.inj_succ. unfold Z.succ.
    rewrite inject_Z_plus. ring.
Qed.

Lemma length_candidates n C p cur : length (candidates n C p cur) = n.
Proof. unfold candidates. now rewrite length_map, length_seq. Qed.

(** What a scan that stops has done: [n] candidates in a row passed the
    test, they are the result, and the next candidate failed it. *)
Lemma find_crossings_inv fuel C It It_dt p cur acc l :
  find_crossings fuel C It It_dt p cur acc = Some l ->
  exists n, (n < fuel)%nat /\
    l = acc ++ candidates n C p cur /\
    (forall k, (k < n)%nat ->
       is_crossing p It It_dt (candidate (S k) C p cur) = true) /\
    is_crossing p It It_dt (candidate (S n) C p cur) = false.
Proof.
  revert cur acc. induction fuel as [|fuel IH]; intros cur acc; [discriminate|].
  cbn [find_crossings].
  destruct (is_crossing p It It_dt (cur + inject_Z p * C)) eqn:E.
  - intros H. apply IH in H as (n & Hn & -> & Hall & Hstop).
    exists (S n). split; [lia|]. split; [|split].
    + rewrite candidates_S, <- app_assoc. reflexivity.
    + intros [|k] Hk; [exact E|]. apply Hall. lia.
    + exact Hstop.
  - intros [= <-]. exists O. split; [lia|]. split; [|split].
    + unfold candidates. simpl. now rewrite app_nil_r.
    + intros k Hk. lia.
    + exact E.
Qed.

Lemma is_crossing_iff p It It_dt c :
  is_crossing p It It_dt c = true <-> crossing_test p It It_dt c.
Proof.
  unfold is_crossing, crossing_test. destruct (0 <? p)%Z;
    now rewrite andb_true_iff, Qlt_bool_iff, Qle_bool_iff.
Qed.

Lemma is_crossing_false_iff p It It_dt c :
  is_crossing p It It_dt c = false <-> ~ crossing_test p It It_dt c.
Proof. rewrite <- is_crossing_iff. now destruct (is_crossing p It It_dt c). Qed.

Lemma polarity_of_cases It It_dt :
  (It <= It_dt /\ polarity_of It It_dt = 1%Z) \/
  (It_dt < It /\ polarity_of It It_dt = (-1)%Z).
Proof.
  unfold polarity_of. destruct (Qle_bool It It_dt) eqn:E.
  - left. now apply Qle_bool_iff in E.
  - right. now apply Qle_bool_false in E.
Qed.

(** Case split on the polarity of a step, with the test of a candidate
    reduced to its two inequalities in each case. *)
Ltac polarity_cases It It_dt :=
  let Hp := fresh "Hp" in
  destruct (polarity_of_cases It It_dt) as [[? Hp] | [? Hp]];
  rewrite ?Hp in *;
  change (0 <? 1)%Z with true in *; change (0 <? -1)%Z with false in *;
  cbv beta iota in *;
  change (inject_Z 1) with 1 in *; change (inject_Z (-1)) with (-1) in *.

Lemma candidate_S_closed k C p cur :
  candidate (S k) C p cur == cur + inject_Z (Z.of_nat k + 1) * (inject_Z p * C).
Proof.
  rewrite candidate_closed, Nat2Z.inj_succ. unfold Z.succ. reflexivity.
Qed.

(** ** Arrays *)

Lemma getitem_Some a v u q :
  getitem a v u = Some q ->
  (v < fst (shape a))%nat /\ (u < snd (shape a))%nat /\
  data a !! flat_index a v u = Some q.
Proof.
  unfold getitem.
  destruct (Nat.ltb_spec v (fst (shape a))), (Nat.ltb_spec u (snd (shape a)));
    simpl; intros Hq; try discriminate. auto.
Qed.

Lemma getitem_in_range a v u :
  (v < fst (shape a))%nat -> (u < snd (shape a))%nat ->
  getitem a v u = data a !! flat_index a v u.
Proof.
  intros Hv Hu. unfold getitem.
  apply Nat.ltb_lt in Hv, Hu. now rewrite Hv, Hu.
Qed.

Lemma getitem_setitem_eq a v u x q :
  getitem a v u = Some q -> getitem (setitem a v u x) v u = Some x.
Proof.
  intros H. apply getitem_Some in H as (Hv & Hu & Hd).
  rewrite getitem_in_range by assumption.
  unfold setitem, flat_index. simpl.
  apply list_lookup_insert_eq. eapply lookup_lt_Some. exact Hd.
Qed.

Lemma getitem_setitem_ne a v u x v' u' :
  (u < snd (shape a))%nat -> (v', u') <> (v, u) ->
  getitem (setitem a v u x) v' u' = getitem a v' u'.
Proof.
  intros Hu Hne. unfold getitem, setitem, flat_index. simpl.
  destruct (Nat.ltb_spec v' (fst (shape a))), (Nat.ltb_spec u' (snd (shape a)));
    simpl; try reflexivity.
  apply list_lookup_insert_ne. intros E. apply Hne.
  assert (v = v') by nia. subst v'. f_equal. lia.
Qed.

(** ** The loops *)

Lemma for_each_app {I St} (xs ys : list I) (body : I -> St -> St * option exn) s :
  for_each (xs ++ ys) body s =
  match for_each xs body s with
  | (s', None) => for_each ys body s'
  | r => r
  end.
Proof.
  revert s. induction xs as [|i xs IH]; intros s; simpl; [reflexivity|].
  destruct (body i s) as [s' [e|]]; [reflexivity|apply IH].
Qed.

Lemma for_each_map {I J St} (f : I -> J) (xs : list I)
    (body : J -> St -> St * option exn) s :
  for_each (map f xs) body s = for_each xs (fun i => body (f i)) s.
Proof.
  revert s. induction xs as [|i xs IH]; intros s; simpl; [reflexivity|].
  destruct (body (f i) s) as [s' [e|]]; [reflexivity|apply IH].
Qed.

(** Two nested loops visit the pairs of [list_prod] in order. *)
Lemma for_each_nested {I J St} (xs : list I) (ys : list J)
    (body : I -> J -> St -> St * option exn) s :
  for_each xs (fun a => for_each ys (body a)) s =
  for_each (list_prod xs ys) (fun p => body (fst p) (snd p)) s.
Proof.
  revert s. induction xs as [|a xs IH]; intros s; simpl; [reflexivity|].
  rewrite for_each_app, for_each_map. simpl.
  change (fun i => body a i) with (body a).
  destruct (for_each ys (body a) s) as [s' [e|]]; [reflexivity|apply IH].
Qed.

Lemma NoDup_list_prod {I J} (xs : list I) (ys : list J) :
  NoDup xs -> NoDup ys -> NoDup (list_prod xs ys).
Proof.
  intros Hx Hy. induction Hx as [|a xs Ha Hx IH]; simpl; [constructor|].
  apply NoDup_app. split; [|split].
  - apply (NoDup_fmap_2_strong (pair a)); [|exact Hy].
    intros b b' _ _ [= ->]. reflexivity.
  - intros [a' b] Hin Hin'.
    apply list_elem_of_In, in_map_iff in Hin as (b' & [= <- <-] & _).
    apply list_elem_of_In, in_prod_iff in Hin' as [Hin' _].
    apply Ha, list_elem_of_In, Hin'.
  - exact IH.
Qed.

Lemma in_pixels self u v :
  In (u, v) (pixels self) <-> (u < width self)%nat /\ (v < height self)%nat.
Proof.
  unfold pixels. rewrite in_prod_iff, !in_seq. lia.
Qed.

Lemma NoDup_pixels self : NoDup (pixels self).
Proof. apply NoDup_list_prod; apply NoDup_seq. Qed.

Lemma pixel_body_inv fuel self delta_t A u v ls ls' :
  pixel_body fuel self delta_t A u v ls = (ls', None) ->
  exists It It_dt ref cs,
    getitem (It_array self) v u = Some It /\
    getitem A v u = Some It_dt /\
    getitem (refs ls) v u = Some ref /\
    px_crossings fuel (C self) It It_dt ref = Some cs /\
    ls' = mk_loop_state
            (current_events ls ++ events_for_px (t self) delta_t u v It It_dt cs)
            (store_last (refs ls) v u cs ref).
Proof.
  unfold pixel_body, px_crossings.
  destruct (getitem (It_array self) v u) as [It|]; [|discriminate].
  destruct (getitem A v u) as [It_dt|]; [|discriminate].
  destruct (getitem (refs ls) v u) as [ref|]; [|discriminate].
  intros H. exists It, It_dt, ref.
  destruct (Qlt_bool tol (Qabs (It - It_dt))).
  - destruct (find_crossings fuel (C self) It It_dt (polarity_of It It_dt) ref [])
      as [cs|]; [|discriminate].
    exists cs. repeat split; try reflexivity.
    destruct cs; injection H as <-; reflexivity.
  - exists []. repeat split; try reflexivity.
    injection H as <-. destruct ls. simpl. now rewrite app_nil_r.
Qed.

Lemma shape_store_last r v u cs ref : shape (store_last r v u cs ref) = shape r.
Proof. destruct cs; reflexivity. Qed.

Lemma getitem_store_last_eq r v u cs ref :
  getitem r v u = Some ref ->
  getitem (store_last r v u cs ref) v u = Some (List.last cs ref).
Proof.
  intros H. destruct cs as [|c cs]; [exact H|].
  unfold store_last. eapply getitem_setitem_eq. exact H.
Qed.

Lemma getitem_store_last_ne r v u cs ref v' u' :
  (u < snd (shape r))%nat -> (v', u') <> (v, u) ->
  getitem (store_last r v u cs ref) v' u' = getitem r v' u'.
Proof.
  intros Hu Hne. destruct cs as [|c cs]; [reflexivity|].
  now apply getitem_setitem_ne.
Qed.

Lemma events_of_pixel_run fuel self delta_t A r u v It It_dt ref cs :
  pixel_run fuel self A r u v It It_dt ref cs ->
  events_of_pixel fuel self delta_t A r (u, v) =
  events_for_px (t self) delta_t u v It It_dt cs.
Proof.
  intros (H1 & H2 & H3 & H4). unfold events_of_pixel. simpl.
  now rewrite H1, H2, H3, H4.
Qed.

Lemma events_of_pixel_coords fuel self delta_t A r p e :
  In e (events_of_pixel fuel self delta_t A r p) -> (x e, y e) = p.
Proof.
  unfold events_of_pixel.
  destruct (getitem (It_array self) (snd p) (fst p)); [|intros []].
  destruct (getitem A (snd p) (fst p)); [|intros []].
  destruct (getitem r (snd p) (fst p)); [|intros []].
  destruct (px_crossings fuel (C self) q q0 q1); [|intros []].
  unfold events_for_px. rewrite in_map_iff. intros (c & <- & _).
  now destruct p.
Qed.

Lemma flat_map_ext_in {A B} (f g : A -> list B) l :
  (forall a, In a l -> f a = g a) -> flat_map f l = flat_map g l.
Proof.
  induction l as [|a l IH]; intros H; simpl; [reflexivity|].
  rewrite (H a) by now left. f_equal. apply IH. intros b Hb. apply H. now right.
Qed.

(** The loop over a duplicate-free list of pixels: every listed pixel is
    scanned once, from the reference it had before the loop; the other
    reference values are not touched; the events are the pixels' events in
    the order of the list. *)
Lemma pixel_list_inv fuel self delta_t A ps : forall ls ls',
  NoDup ps ->
  for_each ps (fun p => pixel_body fuel self delta_t A (fst p) (snd p)) ls
    = (ls', None) ->
  shape (refs ls') = shape (refs ls) /\
  (forall u v, ~ In (u, v) ps ->
     getitem (refs ls') v u = getitem (refs ls) v u) /\
  (forall u v, In (u, v) ps ->
     exists It It_dt ref cs,
       pixel_run fuel self A (refs ls) u v It It_dt ref cs /\
       getitem (refs ls') v u = Some (List.last cs ref)) /\
  current_events ls' =
    current_events ls ++
    flat_map (events_of_pixel fuel self delta_t A (refs ls)) ps.
Proof.
  induction ps as [|[u0 v0] ps IH]; intros ls ls' Hnd H.
  - simpl in H. injection H as <-. simpl. rewrite app_nil_r.
    repeat split; auto. intros u v [].
  - apply NoDup_cons in Hnd as [Hnotin Hnd].
    rewrite list_elem_of_In in Hnotin.
    cbn [for_each fst snd] in H.
    destruct (pixel_body fuel self delta_t A u0 v0 ls) as [ls1 [e|]] eqn:E;
      [discriminate|].
    apply pixel_body_inv in E as (It & It_dt & ref & cs & H1 & H2 & H3 & H4 & ->).
    destruct (IH _ _ Hnd H) as (Hshape & Hother & Hin & Hev). clear IH H.
    cbn [refs current_events] in *.
    pose proof (getitem_Some _ _ _ _ H3) as (_ & Hu0 & _).
    assert (Hsame : forall u v, In (u, v) ps ->
              getitem (store_last (refs ls) v0 u0 cs ref) v u =
              getitem (refs ls) v u).
    { intros u v Huv. apply getitem_store_last_ne; [exact Hu0|].
      intros [= -> ->]. contradiction. }
    split; [|split; [|split]].
    + now rewrite Hshape, shape_store_last.
    + intros u v Hn. rewrite Hother by (intros Hc; apply Hn; now right).
      apply getitem_store_last_ne; [exact Hu0|].
      intros [= -> ->]. apply Hn. now left.
    + intros u v [[= <- <-] | Huv].
      * exists It, It_dt, ref, cs. split; [now repeat split|].
        rewrite Hother by exact Hnotin. now apply getitem_store_last_eq.
      * destruct (Hin u v Huv) as (It' & It_dt' & ref' & cs' & (G1 & G2 & G3 & G4) & G5).
        exists It', It_dt', ref', cs'. split; [|exact G5].
        rewrite Hsame in G3 by exact Huv. now repeat split.
    + rewrite Hev, <- app_assoc. f_equal. cbn [flat_map]. f_equal.
      * symmetry. apply (events_of_pixel_run _ _ _ _ _ _ _ It It_dt ref cs).
        now repeat split.
      * apply flat_map_ext_in. intros [u v] Huv. unfold events_of_pixel.
        cbn [fst snd]. now rewrite Hsame.
Qed.

Lemma events_at_all u v evs :
  (forall e, In e evs -> (x e, y e) = (u, v)) -> events_at u v evs = evs.
Proof.
  intros H. induction evs as [|e evs IH]; [reflexivity|].
  unfold events_at in *. simpl.
  pose proof (H e (or_introl eq_refl)) as [= -> ->].
  rewrite !Nat.eqb_refl. simpl. f_equal. apply IH. intros e' He'. apply H. now right.
Qed.

Lemma events_at_none u v evs :
  (forall e, In e evs -> (x e, y e) <> (u, v)) -> events_at u v evs = [].
Proof.
  intros H. induction evs as [|e evs IH]; [reflexivity|].
  unfold events_at in *. cbn [List.filter].
  pose proof (H e (or_introl eq_refl)) as Hne.
  destruct (Nat.eqb_spec (x e) u) as [Hx|], (Nat.eqb_spec (y e) v) as [Hy|];
    cbn [andb]; try (apply IH; intros e' He'; apply H; now right).
  exfalso. apply Hne. now rewrite Hx, Hy.
Qed.

Lemma events_at_app u v l1 l2 :
  events_at u v (l1 ++ l2) = events_at u v l1 ++ events_at u v l2.
Proof. apply List.filter_app. Qed.

Lemma events_at_flat_map_out (f : nat * nat -> list Event) ps u v :
  (forall p e, In e (f p) -> (x e, y e) = p) ->
  ~ In (u, v) ps ->
  events_at u v (flat_map f ps) = [].
Proof.
  intros Hf Hn. apply events_at_none. intros e He Hc.
  apply in_flat_map in He as (p & Hp & He). apply Hf in He.
  rewrite <- He, Hc in Hp. contradiction.
Qed.

Lemma events_at_flat_map_in (f : nat * nat -> list Event) ps u v :
  (forall p e, In e (f p) -> (x e, y e) = p) ->
  NoDup ps -> In (u, v) ps ->
  events_at u v (flat_map f ps) = f (u, v).
Proof.
  intros Hf Hnd. induction Hnd as [|p ps Hp Hnd IH]; [intros []|].
  rewrite list_elem_of_In in Hp.
  cbn [flat_map]. rewrite events_at_app. intros [->|Hin].
  - rewrite (events_at_flat_map_out f ps u v Hf Hp), app_nil_r.
    apply events_at_all. intros e He. now apply Hf in He.
  - rewrite IH by exact Hin. rewrite events_at_none; [reflexivity|].
    intros e He Hc. apply Hf in He. rewrite <- He, Hc in Hp. contradiction.
Qed.

(** ** What a call of [update] that returns has done *)

Lemma shape_eqb_eq s1 s2 : shape_eqb s1 s2 = true <-> s1 = s2.
Proof.
  destruct s1 as [a b], s2 as [c d]. unfold shape_eqb. simpl.
  rewrite andb_true_iff, !Nat.eqb_eq. split; [intros [-> ->]|intros [= -> ->]]; auto.
Qed.

Lemma update_returns fuel self t_dt A self' evs :
  update fuel self t_dt A = (self', Returns evs) ->
  update_post fuel self t_dt A self' evs.
Proof.
  unfold update.
  destruct (shape_eqb (shape A) (shape (It_array self))) eqn:Es;
    cbn [negb]; [|discriminate].
  destruct (Qlt_bool 0 (t_dt - t self)) eqn:Et; cbn [negb]; [|discriminate].
  unfold pixel_loop. rewrite for_each_nested.
  destruct (for_each _ _ _) as [ls [e|]] eqn:E; [discriminate|].
  intros [= <- <-].
  apply (pixel_list_inv fuel self (t_dt - t self) A (pixels self)) in E
    as (Hshape & Hother & Hin & Hev); [|apply NoDup_pixels].
  cbn [refs current_events app] in *.
  pose proof (events_of_pixel_coords fuel self (t_dt - t self) A
                (reference_values self)) as Hco.
  constructor; cbn [C height width It_array t reference_values]; auto.
  - now apply shape_eqb_eq.
  - now apply Qlt_bool_iff.
  - intros u v Hu Hv.
    destruct (Hin u v) as (It & It_dt & ref & cs & Hrun & Hlast);
      [now apply in_pixels|].
    exists It, It_dt, ref, cs. split; [exact Hrun|]. split; [exact Hlast|].
    rewrite Hev, events_at_flat_map_in;
      [|exact Hco|apply NoDup_pixels|now apply in_pixels].
    now apply (events_of_pixel_run _ _ _ _ _ _ _ It It_dt ref cs).
  - intros u v Hn. rewrite <- in_pixels in Hn. split; [now apply Hother|].
    rewrite Hev. now apply events_at_flat_map_out.
Qed.

(** The events of a call are those of its pixels. *)
Lemma update_event_pixel fuel self t_dt A self' evs e :
  update_post fuel self t_dt A self' evs -> In e evs ->
  (x e < width self)%nat /\ (y e < height self)%nat /\
  In e (events_at (x e) (y e) evs).
Proof.
  intros P He. assert (Hat : In e (events_at (x e) (y e) evs)).
  { unfold events_at. apply List.filter_In. split; [exact He|].
    now rewrite !Nat.eqb_refl. }
  destruct (le_lt_dec (width self) (x e)) as [Hw|Hw];
    [|destruct (le_lt_dec (height self) (y e)) as [Hh|Hh]].
  - destruct (post_outside _ _ _ _ _ _ P (x e) (y e)) as [_ Hnil]; [lia|].
    rewrite Hnil in Hat. destruct Hat.
  - destruct (post_outside _ _ _ _ _ _ P (x e) (y e)) as [_ Hnil]; [lia|].
    rewrite Hnil in Hat. destruct Hat.
  - auto.
Qed.

Lemma for_each_invariant {I St} (P : St -> Prop) (xs : list I)
    (body : I -> St -> St * option exn) :
  (forall i s s', In i xs -> P s -> body i s = (s', None) -> P s') ->
  forall s s', P s -> for_each xs body s = (s', None) -> P s'.
Proof.
  induction xs as [|i xs IH]; intros Hbody s s' Hs H; simpl in H.
  - now injection H as <-.
  - destruct (body i s) as [s1 [e|]] eqn:E; [discriminate|].
    apply (IH (fun j a b Hj => Hbody j a b (or_intror Hj)) s1 s'); [|exact H].
    apply (Hbody i s s1); auto. now left.
Qed.

(** An exception of a loop is an exception of its body. *)
Lemma for_each_raises {I St} (xs : list I)
    (body : I -> St -> St * option exn) s s' e :
  for_each xs body s = (s', Some e) ->
  exists i s0, In i xs /\ body i s0 = (s', Some e).
Proof.
  revert s. induction xs as [|i xs IH]; intros s H; simpl in H; [discriminate|].
  destruct (body i s) as [s1 [e1|]] eqn:E.
  - injection H as <- <-. exists i, s. split; [now left|exact E].
  - destruct (IH _ H) as (j & s0 & Hj & Hb). exists j, s0. split; [now right|exact Hb].
Qed.

Lemma pixel_body_no_assert fuel self delta_t A u v ls ls' :
  pixel_body fuel self delta_t A u v ls <> (ls', Some AssertionError).
Proof.
  unfold pixel_body.
  destruct (getitem (It_array self) v u); [|discriminate].
  destruct (getitem A v u); [|discriminate].
  destruct (getitem (refs ls) v u); [|discriminate].
  destruct (Qlt_bool tol (Qabs (q - q0))); [|discriminate].
  destruct (find_crossings _ _ _ _ _ _ _) as [[|c cs]|]; discriminate.
Qed.

Lemma px_crossings_skip fuel C It It_dt ref :
  Qabs (It_dt - It) <= tol -> px_crossings fuel C It It_dt ref = Some [].
Proof.
  intros H. unfold px_crossings. rewrite Qabs_Qminus.
  apply Qlt_bool_false in H. now rewrite H.
Qed.

Lemma px_crossings_scan fuel C It It_dt ref :
  tol < Qabs (It_dt - It) ->
  px_crossings fuel C It It_dt ref =
  find_crossings fuel C It It_dt (polarity_of It It_dt) ref [].
Proof.
  intros H. unfold px_crossings. rewrite Qabs_Qminus.
  apply Qlt_bool_iff in H. now rewrite H.
Qed.

(** *** The scan of one pixel *)

(** The scan of a pixel that is not skipped. *)
Lemma pixel_scan_inv fuel self A r u v It It_dt ref cs :
  pixel_run fuel self A r u v It It_dt ref cs ->
  tol < Qabs (It_dt - It) ->
  cs = candidates (length cs) (C self) (polarity_of It It_dt) ref /\
  (forall k, (k < length cs)%nat ->
     crossing_test (polarity_of It It_dt) It It_dt
       (candidate (S k) (C self) (polarity_of It It_dt) ref)) /\
  ~ crossing_test (polarity_of It It_dt) It It_dt
      (candidate (S (length cs)) (C self) (polarity_of It It_dt) ref).
Proof.
  intros (_ & _ & _ & H) Htol. rewrite px_crossings_scan in H by exact Htol.
  apply find_crossings_inv in H as (n & _ & -> & Hall & Hstop).
  cbn [app]. rewrite length_candidates. split; [reflexivity|]. split.
  - intros k Hk. apply is_crossing_iff, Hall, Hk.
  - now apply is_crossing_false_iff.
Qed.

Lemma pixel_run_functional fuel self A r u v It It_dt ref cs It' It_dt' ref' :
  pixel_run fuel self A r u v It It_dt ref cs ->
  getitem (It_array self) v u = Some It' ->
  getitem A v u = Some It_dt' ->
  getitem r v u = Some ref' ->
  It = It' /\ It_dt = It_dt' /\ ref = ref'.
Proof. intros (H1 & H2 & H3 & _) G1 G2 G3. repeat split; congruence. Qed.

(** * The properties of the specification *)

(** C3.  After a call of [update] that returns, the reference value of a
    pixel is the last crossing value found for it when there is one, and is
    unchanged when there is none, as is the case when
    [|I1 - I0| <= 1e-6]. *)
Theorem C3_reference_level fuel self t_dt A self' evs u v I0 I1 ref :
  update fuel self t_dt A = (self', Returns evs) ->
  (u < width self)%nat -> (v < height self)%nat ->
  getitem (It_array self) v u = Some I0 ->
  getitem A v u = Some I1 ->
  getitem (reference_values self) v u = Some ref ->
  exists cs : list Q,
    px_crossings fuel (C self) I0 I1 ref = Some cs /\
    events_at u v evs = events_for_px (t self) (t_dt - t self) u v I0 I1 cs /\
    (forall cs' c, cs = cs' ++ [c] ->
       getitem (reference_values self') v u = Some c) /\
    (cs = [] -> getitem (reference_values self') v u = Some ref) /\
    (Qabs (I1 - I0) <= tol -> cs = []).
Proof.
  intros Hup Hu Hv G1 G2 G3. apply update_returns in Hup.
  destruct (post_pixel _ _ _ _ _ _ Hup u v Hu Hv)
    as (It & It_dt & r & cs & Hrun & Hlast & Hev).
  destruct (pixel_run_functional _ _ _ _ _ _ _ _ _ _ _ _ _ Hrun G1 G2 G3)
    as (-> & -> & ->).
  destruct Hrun as (_ & _ & _ & Hcs).
  exists cs. split; [exact Hcs|]. split; [exact Hev|]. split; [|split].
  - intros cs' c ->. now rewrite List.last_last in Hlast.
  - intros ->. exact Hlast.
  - intros Hle. rewrite px_crossings_skip in Hcs by exact Hle. congruence.
Qed.

(** C6.  When every pixel has [|I1 - I0| <= 1e-6], a call of [update] that
    returns gives no event and leaves the whole reference grid as it
    is. *)
Theorem C6_no_change_no_event fuel self t_dt A self' evs :
  update fuel self t_dt A = (self', Returns evs) ->
  (forall u v I0 I1, (u < width self)%nat -> (v < height self)%nat ->
     getitem (It_array self) v u = Some I0 ->
     getitem A v u = Some I1 ->
     Qabs (I1 - I0) <= tol) ->
  evs = [] /\ reference_values self' = reference_values self.
Proof.
  intros Hup Hsmall. unfold update in Hup.
  destruct (negb (shape_eqb _ _)); [discriminate|].
  destruct (negb (Qlt_bool _ _)); [discriminate|].
  unfold pixel_loop in Hup. rewrite for_each_nested in Hup.
  destruct (for_each _ _ _) as [ls [e|]] eqn:E; [discriminate|].
  injection Hup as <- <-. cbn [reference_values].
  revert E.
  apply (for_each_invariant
           (fun ls => current_events ls = [] /\
                      refs ls = reference_values self));
    [|split; reflexivity].
  intros [u v] s s' Hin [Hev Href] Hbody. cbn [fst snd] in Hbody.
  apply in_pixels in Hin as [Hu Hv].
  apply pixel_body_inv in Hbody as (I0 & I1 & ref & cs & G1 & G2 & _ & Hcs & ->).
  rewrite px_crossings_skip in Hcs by eauto. injection Hcs as <-.
  cbn [current_events refs store_last events_for_px map].
  now rewrite app_nil_r.
Qed.

(** C7.  A call of [update] that returns has set the stored timestamp to
    [t1] and the stored snapshot to [I1], whatever the events; [C], [width]
    and [height] are as before. *)
Theorem C7_snapshot_replaced fuel self t_dt A self' evs :
  update fuel self t_dt A = (self', Returns evs) ->
  t self' = t_dt /\ It_array self' = A /\
  C self' = C self /\ width self' = width self /\ height self' = height self.
Proof.
  intros Hup. apply update_returns in Hup. destruct Hup. auto.
Qed.

(** C8.  [update] fails its assertions exactly when the shape of the new
    frame differs from that of the stored snapshot or [t1 - t] is not
    positive; the simulator is then what it was, and nothing is returned. *)
Theorem C8_rejected_calls fuel self t_dt A :
  (snd (update fuel self t_dt A) = Raises AssertionError <->
   shape A <> shape (It_array self) \/ ~ 0 < t_dt - t self) /\
  (snd (update fuel self t_dt A) = Raises AssertionError ->
   update fuel self t_dt A = (self, Raises AssertionError)).
Proof.
  unfold update.
  destruct (shape_eqb (shape A) (shape (It_array self))) eqn:Es; cbn [negb].
  2:{ split; [|reflexivity]. split; [|reflexivity]. intros _. left.
      intros Heq. apply shape_eqb_eq in Heq. congruence. }
  apply shape_eqb_eq in Es.
  destruct (Qlt_bool 0 (t_dt - t self)) eqn:Et; cbn [negb].
  2:{ split; [|reflexivity]. split; [|reflexivity]. intros _. right.
      apply Qlt_bool_false in Et. lra. }
  apply Qlt_bool_iff in Et.
  unfold pixel_loop. rewrite for_each_nested.
  destruct (for_each _ _ _) as [ls [e|]] eqn:E; cbn [snd].
  - assert (e <> AssertionError).
    { intros ->. apply for_each_raises in E as ([u v] & s0 & _ & Hb).
      now apply pixel_body_no_assert in Hb. }
    split; [split|]; [congruence|tauto|congruence].
  - split; [split|]; [discriminate|tauto|discriminate].
Qed.

(** ** The driver *)

Lemma insert_by_ts_perm e l : Permutation (e :: l) (insert_by_ts e l).
Proof.
  induction l as [|e' l IH]; simpl; [reflexivity|].
  destruct (Qle_bool (ts e) (ts e')); [reflexivity|].
  rewrite perm_swap. now apply perm_skip.
Qed.

Lemma sorted_by_ts_perm l : Permutation l (sorted_by_ts l).
Proof.
  induction l as [|e l IH]; simpl; [reflexivity|].
  rewrite <- insert_by_ts_perm. now apply perm_skip.
Qed.

Lemma insert_by_ts_sorted e l :
  StronglySorted ts_le l -> StronglySorted ts_le (insert_by_ts e l).
Proof.
  induction 1 as [|e' l Hs IH Hall]; simpl.
  - repeat constructor.
  - destruct (Qle_bool (ts e) (ts e')) eqn:E.
    + apply Qle_bool_iff in E. constructor; [now constructor|].
      constructor; [exact E|].
      eapply List.Forall_impl; [|exact Hall]. intros a Ha. unfold ts_le in *. lra.
    + apply Qle_bool_false in E. constructor; [exact IH|].
      rewrite <- insert_by_ts_perm. constructor; [|exact Hall].
      unfold ts_le. lra.
Qed.

Lemma sorted_by_ts_sorted l : StronglySorted ts_le (sorted_by_ts l).
Proof.
  induction l as [|e l IH]; simpl; [constructor|]. now apply insert_by_ts_sorted.
Qed.

(** C9.  One frame of the driver loop, with the events [current_events]
    that [update] returned for it: when the frame timestamp minus
    [last_pub_event_timestamp] exceeds the publish interval, the buffer
    (with the new events) is sorted by timestamp, the sorted batch is
    published with the frame timestamp as its stamp, the buffer becomes
    empty and [last_pub_event_timestamp] the frame timestamp; otherwise the
    buffer is kept and nothing else changes. *)
Theorem C9_batching delta_event cam_width cam_height write_to_bag timestamp
    current_events d :
  let d' := frame_events delta_event cam_width cam_height write_to_bag
              timestamp current_events d in
  (delta_event < timestamp - last_pub_event_timestamp d ->
   exists batch,
     published d' = published d ++ [batch] /\
     bag d' = (if write_to_bag then bag d ++ [batch] else bag d) /\
     stamp batch = timestamp /\
     ea_events batch = sorted_by_ts (events d ++ current_events) /\
     Permutation (events d ++ current_events) (ea_events batch) /\
     StronglySorted ts_le (ea_events batch) /\
     events d' = [] /\
     last_pub_event_timestamp d' = timestamp) /\
  (~ delta_event < timestamp - last_pub_event_timestamp d ->
   events d' = events d ++ current_events /\
   last_pub_event_timestamp d' = last_pub_event_timestamp d /\
   published d' = published d /\
   bag d' = bag d).
Proof.
  cbv zeta. unfold frame_events, publish_events.
  cbn [events last_pub_event_timestamp published bag].
  destruct (Qlt_bool delta_event (timestamp - last_pub_event_timestamp d)) eqn:E.
  - apply Qlt_bool_iff in E. split; [intros _|tauto].
    eexists. cbn [events last_pub_event_timestamp published bag].
    split; [reflexivity|]. split; [reflexivity|].
    cbn [stamp ea_events]. repeat split.
    + apply sorted_by_ts_perm.
    + apply sorted_by_ts_sorted.
  - apply Qlt_bool_false in E. split; [intros H; lra|].
    intros _. cbn [events last_pub_event_timestamp published bag]. auto.
Qed.

(** ** Arrays that hold as many numbers as their shape says *)

Lemma getitem_wf a v u :
  wf_array a -> (v < fst (shape a))%nat -> (u < snd (shape a))%nat ->
  exists q, getitem a v u = Some q.
Proof.
  intros Hwf Hv Hu. rewrite getitem_in_range by assumption.
  apply lookup_lt_is_Some_2. unfold flat_index. rewrite Hwf. nia.
Qed.

Lemma wf_array_store_last r v u cs ref :
  wf_array r -> wf_array (store_last r v u cs ref).
Proof.
  unfold wf_array. destruct cs; [auto|]. unfold store_last, setitem. simpl.
  now rewrite length_insert.
Qed.

Lemma init_wf initial_time initial_values C0 self :
  wf_array initial_values ->
  init initial_time initial_values C0 = Returns self -> wf_sim self.
Proof.
  intros Hw. unfold init.
  destruct (Qlt_bool 0 C0) eqn:EC; cbn [negb]; [|discriminate].
  destruct (negb _); [discriminate|]. destruct (negb _); [discriminate|].
  intros [= <-]. apply Qlt_bool_iff in EC. unfold wf_sim. simpl.
  repeat split; try assumption; now destruct (shape initial_values).
Qed.

(** ** Lists *)

Lemma last_cons {A} (a d : A) l : List.last (a :: l) d = List.last l a.
Proof.
  revert a d. induction l as [|b l IH]; intros a d; [reflexivity|].
  change (List.last (a :: b :: l) d) with (List.last (b :: l) d).
  rewrite !IH. reflexivity.
Qed.

(** ** Concrete runs *)

Lemma C3_witness :
  exists cs : list Q,
    px_crossings 10 (C ex_sim) 0 (1 # 2) 0 = Some cs /\
    events_at 0 0 ex_events =
      events_for_px (t ex_sim) (1 - t ex_sim) 0 0 0 (1 # 2) cs /\
    (forall cs' c, cs = cs' ++ [c] ->
       getitem (reference_values ex_sim') 0 0 = Some c) /\
    (cs = [] -> getitem (reference_values ex_sim') 0 0 = Some 0) /\
    (Qabs ((1 # 2) - 0) <= tol -> cs = []).
Proof.
  apply (C3_reference_level 10 ex_sim 1 ex_frame ex_sim' ex_events 0 0
           0 (1 # 2) 0);
    [vm_compute; reflexivity | vm_compute; lia | vm_compute; lia
    | reflexivity | reflexivity | reflexivity].
Defined.

(** The same frame again: every pixel is skipped. *)
Lemma same_frame_small u v I0 I1 :
  getitem ex_initial v u = Some I0 -> getitem ex_initial v u = Some I1 ->
  Qabs (I1 - I0) <= tol.
Proof.
  intros -> [= ->]. apply Qabs_Qle_condition. unfold tol. split.
  - apply Qle_minus_iff. ring_simplify. discriminate.
  - apply Qle_minus_iff. ring_simplify. discriminate.
Defined.

Lemma C6_witness :
  snd (update 10 ex_sim 1 ex_initial) = Returns [] /\
  reference_values (fst (update 10 ex_sim 1 ex_initial)) =
    reference_values ex_sim.
Proof.
  destruct (C6_no_change_no_event 10 ex_sim 1 ex_initial
              (fst (update 10 ex_sim 1 ex_initial)) [])
    as [_ Href].
  - vm_compute. reflexivity.
  - intros u v I0 I1 _ _. apply same_frame_small.
  - split; [vm_compute; reflexivity|exact Href].
Defined.

Lemma C7_witness :
  t ex_sim' = 1 /\ It_array ex_sim' = ex_frame /\
  C ex_sim' = C ex_sim /\ width ex_sim' = width ex_sim /\
  height ex_sim' = height ex_sim.
Proof.
  apply (C7_snapshot_replaced 10 ex_sim 1 ex_frame ex_sim' ex_events).
  vm_compute. reflexivity.
Defined.

(** A frame of another shape, and a timestamp that is not later, are
    rejected. *)
Lemma ex_rejected :
  update 10 ex_sim 1 (mk_ndarray (2%nat, 1%nat) [1 # 2; 1 # 2])
    = (ex_sim, Raises AssertionError) /\
  update 10 ex_sim 0 ex_frame = (ex_sim, Raises AssertionError).
Proof. split; reflexivity. Qed.

(** * Properties of the simulator on binary64 numbers *)

Section Binary64Properties.

Import Binary64.
Local Open Scope float_scope.

(** ** The crossing scan, the arrays and the loops *)

Lemma b64_candidates_S n C p cur :
  candidates (S n) C p cur =
  (cur + float_of_polarity p * C) :: candidates n C p (cur + float_of_polarity p * C).
Proof.
  unfold candidates. simpl. f_equal. rewrite <- seq_shift, map_map. reflexivity.
Qed.

Lemma b64_length_candidates n C p cur : length (candidates n C p cur) = n.
Proof. unfold candidates. now rewrite length_map, length_seq. Qed.

Lemma b64_find_crossings_inv fuel C It It_dt p cur acc l :
  find_crossings fuel C It It_dt p cur acc = Some l ->
  exists n, (n < fuel)%nat /\
    l = acc ++ candidates n C p cur /\
    (forall k, (k < n)%nat ->
       is_crossing p It It_dt (candidate (S k) C p cur) = true) /\
    is_crossing p It It_dt (candidate (S n) C p cur) = false.
Proof.
  revert cur acc. induction fuel as [|fuel IH]; intros cur acc; [discriminate|].
  cbn [find_crossings].
  destruct (is_crossing p It It_dt (cur + float_of_polarity p * C)) eqn:E.
  - intros H. apply IH in H as (n & Hn & -> & Hall & Hstop).
    exists (S n). split; [lia|]. split; [|split].
    + rewrite b64_candidates_S, <- app_assoc. reflexivity.
    + intros [|k] Hk; [exact E|]. apply Hall. lia.
    + exact Hstop.
  - intros [= <-]. exists O. split; [lia|]. split; [|split].
    + unfold candidates. simpl. now rewrite app_nil_r.
    + intros k Hk. lia.
    + exact E.
Qed.

Lemma b64_find_crossings_complete fuel C It It_dt p cur acc n :
  (n < fuel)%nat ->
  (forall k, (k < n)%nat ->
     is_crossing p It It_dt (candidate (S k) C p cur) = true) ->
  is_crossing p It It_dt (candidate (S n) C p cur) = false ->
  find_crossings fuel C It It_dt p cur acc = Some (acc ++ candidates n C p cur).
Proof.
  revert cur acc n. induction fuel as [|fuel IH]; intros cur acc n Hn Hall Hstop; [lia|].
  cbn [find_crossings]. destruct n as [|n].
  - cbn [candidate] in Hstop. rewrite Hstop. unfold candidates. simpl.
    now rewrite app_nil_r.
  - pose proof (Hall O ltac:(lia)) as H0. cbn [candidate] in H0. rewrite H0.
    rewrite b64_candidates_S, (IH _ _ n); [now rewrite <- app_assoc|lia| |exact Hstop].
    intros k Hk. apply (Hall (S k)). lia.
Qed.

Lemma b64_find_crossings_fuel_mono fuel fuel' C It It_dt p cur acc l :
  (fuel <= fuel')%nat ->
  find_crossings fuel C It It_dt p cur acc = Some l ->
  find_crossings fuel' C It It_dt p cur acc = Some l.
Proof.
  intros Hle H. apply b64_find_crossings_inv in H as (n & Hn & -> & Hall & Hstop).
  apply b64_find_crossings_complete; [lia|exact Hall|exact Hstop].
Qed.

Lemma b64_getitem_Some a v u q :
  getitem a v u = Some q ->
  (v < fst (shape a))%nat /\ (u < snd (shape a))%nat /\
  data a !! flat_index a v u = Some q.
Proof.
  unfold getitem.
  destruct (Nat.ltb_spec v (fst (shape a))), (Nat.ltb_spec u (snd (shape a)));
    simpl; intros Hq; try discriminate. auto.
Qed.

Lemma b64_getitem_in_range a v u :
  (v < fst (shape a))%nat -> (u < snd (shape a))%nat ->
  getitem a v u = data a !! flat_index a v u.
Proof.
  intros Hv Hu. unfold getitem.
  apply Nat.ltb_lt in Hv, Hu. now rewrite Hv, Hu.
Qed.

Lemma b64_getitem_setitem_eq a v u x q :
  getitem a v u = Some q -> getitem (setitem a v u x) v u = Some x.
Proof.
  intros H. apply b64_getitem_Some in H as (Hv & Hu & Hd).
  rewrite b64_getitem_in_range by assumption.
  unfold setitem, flat_index. simpl.
  apply list_lookup_insert_eq. eapply lookup_lt_Some. exact Hd.
Qed.

Lemma b64_getitem_setitem_ne a v u x v' u' :
  (u < snd (shape a))%nat -> (v', u') <> (v, u) ->
  getitem (setitem a v u x) v' u' = getitem a v' u'.
Proof.
  intros Hu Hne. unfold getitem, setitem, flat_index. simpl.
  destruct (Nat.ltb_spec v' (fst (shape a))), (Nat.ltb_spec u' (snd (shape a)));
    simpl; try reflexivity.
  apply list_lookup_insert_ne. intros E. apply Hne.
  assert (v = v') by nia. subst v'. f_equal. lia.
Qed.

Lemma b64_in_pixels self u v :
  In (u, v) (pixels self) <-> (u < width self)%nat /\ (v < height self)%nat.
Proof.
  unfold pixels. rewrite in_prod_iff, !in_seq. lia.
Qed.

Lemma b64_NoDup_pixels self : NoDup (pixels self).
Proof. apply NoDup_list_prod; apply NoDup_seq. Qed.

Lemma b64_pixel_body_inv fuel self delta_t A u v ls ls' :
  pixel_body fuel self delta_t A u v ls = (ls', None) ->
  exists It It_dt ref cs,
    getitem (It_array self) v u = Some It /\
    getitem A v u = Some It_dt /\
    getitem (refs ls) v u = Some ref /\
    px_crossings fuel (C self) It It_dt ref = Some cs /\
    ls' = mk_loop_state
            (current_events ls ++ events_for_px (t self) delta_t u v It It_dt cs)
            (store_last (refs ls) v u cs ref).
Proof.
  unfold pixel_body, px_crossings.
  destruct (getitem (It_array self) v u) as [It|]; [|discriminate].
  destruct (getitem A v u) as [It_dt|]; [|discriminate].
  destruct (getitem (refs ls) v u) as [ref|]; [|discriminate].
  intros H. exists It, It_dt, ref.
  destruct ((tol <? abs (It - It_dt))).
  - destruct (find_crossings fuel (C self) It It_dt (polarity_of It It_dt) ref [])
      as [cs|]; [|discriminate].
    exists cs. repeat split; try reflexivity.
    destruct cs; injection H as <-; reflexivity.
  - exists []. repeat split; try reflexivity.
    injection H as <-. destruct ls. simpl. now rewrite app_nil_r.
Qed.

Lemma b64_shape_store_last r v u cs ref : shape (store_last r v u cs ref) = shape r.
Proof. destruct cs; reflexivity. Qed.

Lemma b64_getitem_store_last_eq r v u cs ref :
  getitem r v u = Some ref ->
  getitem (store_last r v u cs ref) v u = Some (List.last cs ref).
Proof.
  intros H. destruct cs as [|c cs]; [exact H|].
  unfold store_last. eapply b64_getitem_setitem_eq. exact H.
Qed.

Lemma b64_getitem_store_last_ne r v u cs ref v' u' :
  (u < snd (shape r))%nat -> (v', u') <> (v, u) ->
  getitem (store_last r v u cs ref) v' u' = getitem r v' u'.
Proof.
  intros Hu Hne. destruct cs as [|c cs]; [reflexivity|].
  now apply b64_getitem_setitem_ne.
Qed.

Lemma b64_events_of_pixel_run fuel self delta_t A r u v It It_dt ref cs :
  pixel_run fuel self A r u v It It_dt ref cs ->
  events_of_pixel fuel self delta_t A r (u, v) =
  events_for_px (t self) delta_t u v It It_dt cs.
Proof.
  intros (H1 & H2 & H3 & H4). unfold events_of_pixel. simpl.
  now rewrite H1, H2, H3, H4.
Qed.

Lemma b64_events_of_pixel_coords fuel self delta_t A r p e :
  In e (events_of_pixel fuel self delta_t A r p) -> (x e, y e) = p.
Proof.
  unfold events_of_pixel.
  destruct (getitem (It_array self) (snd p) (fst p)) as [It|]; [|intros []].
  destruct (getitem A (snd p) (fst p)) as [It_dt|]; [|intros []].
  destruct (getitem r (snd p) (fst p)) as [ref|]; [|intros []].
  destruct (px_crossings fuel (C self) It It_dt ref); [|intros []].
  unfold events_for_px. rewrite in_map_iff. intros (c & <- & _).
  now destruct p.
Qed.

Lemma b64_pixel_list_inv fuel self delta_t A ps : forall ls ls',
  NoDup ps ->
  for_each ps (fun p => pixel_body fuel self delta_t A (fst p) (snd p)) ls
    = (ls', None) ->
  shape (refs ls') = shape (refs ls) /\
  (forall u v, ~ In (u, v) ps ->
     getitem (refs ls') v u = getitem (refs ls) v u) /\
  (forall u v, In (u, v) ps ->
     exists It It_dt ref cs,
       pixel_run fuel self A (refs ls) u v It It_dt ref cs /\
       getitem (refs ls') v u = Some (List.last cs ref)) /\
  current_events ls' =
    current_events ls ++
    flat_map (events_of_pixel fuel self delta_t A (refs ls)) ps.
Proof.
  induction ps as [|[u0 v0] ps IH]; intros ls ls' Hnd H.
  - simpl in H. injection H as <-. simpl. rewrite app_nil_r.
    repeat split; auto. intros u v [].
  - apply NoDup_cons in Hnd as [Hnotin Hnd].
    rewrite list_elem_of_In in Hnotin.
    cbn [for_each fst snd] in H.
    destruct (pixel_body fuel self delta_t A u0 v0 ls) as [ls1 [e|]] eqn:E;
      [discriminate|].
    apply b64_pixel_body_inv in E as (It & It_dt & ref & cs & H1 & H2 & H3 & H4 & ->).
    destruct (IH _ _ Hnd H) as (Hshape & Hother & Hin & Hev). clear IH H.
    cbn [refs current_events] in *.
    pose proof (b64_getitem_Some _ _ _ _ H3) as (_ & Hu0 & _).
    assert (Hsame : forall u v, In (u, v) ps ->
              getitem (store_last (refs ls) v0 u0 cs ref) v u =
              getitem (refs ls) v u).
    { intros u v Huv. apply b64_getitem_store_last_ne; [exact Hu0|].
      intros [= -> ->]. contradiction. }
    split; [|split; [|split]].
    + now rewrite Hshape, b64_shape_store_last.
    + intros u v Hn. rewrite Hother by (intros Hc; apply Hn; now right).
      apply b64_getitem_store_last_ne; [exact Hu0|].
      intros [= -> ->]. apply Hn. now left.
    + intros u v [[= <- <-] | Huv].
      * exists It, It_dt, ref, cs. split; [now repeat split|].
        rewrite Hother by exact Hnotin. now apply b64_getitem_store_last_eq.
      * destruct (Hin u v Huv) as (It' & It_dt' & ref' & cs' & (G1 & G2 & G3 & G4) & G5).
        exists It', It_dt', ref', cs'. split; [|exact G5].
        rewrite Hsame in G3 by exact Huv. now repeat split.
    + rewrite Hev, <- app_assoc. f_equal. cbn [flat_map]. f_equal.
      * symmetry. apply (b64_events_of_pixel_run _ _ _ _ _ _ _ It It_dt ref cs).
        now repeat split.
      * apply flat_map_ext_in. intros [u v] Huv. unfold events_of_pixel.
        cbn [fst snd]. now rewrite Hsame.
Qed.

Lemma b64_events_at_all u v evs :
  (forall e, In e evs -> (x e, y e) = (u, v)) -> events_at u v evs = evs.
Proof.
  intros H. induction evs as [|e evs IH]; [reflexivity|].
  unfold events_at in *. simpl.
  pose proof (H e (or_introl eq_refl)) as [= -> ->].
  rewrite !Nat.eqb_refl. simpl. f_equal. apply IH. intros e' He'. apply H. now right.
Qed.

Lemma b64_events_at_none u v evs :
  (forall e, In e evs -> (x e, y e) <> (u, v)) -> events_at u v evs = [].
Proof.
  intros H. induction evs as [|e evs IH]; [reflexivity|].
  unfold events_at in *. cbn [List.filter].
  pose proof (H e (or_introl eq_refl)) as Hne.
  destruct (Nat.eqb_spec (x e) u) as [Hx|], (Nat.eqb_spec (y e) v) as [Hy|];
    cbn [andb]; try (apply IH; intros e' He'; apply H; now right).
  exfalso. apply Hne. now rewrite Hx, Hy.
Qed.

Lemma b64_events_at_app u v l1 l2 :
  events_at u v (l1 ++ l2) = events_at u v l1 ++ events_at u v l2.
Proof. apply List.filter_app. Qed.

Lemma b64_events_at_flat_map_out (f : nat * nat -> list Event) ps u v :
  (forall p e, In e (f p) -> (x e, y e) = p) ->
  ~ In (u, v) ps ->
  events_at u v (flat_map f ps) = [].
Proof.
  intros Hf Hn. apply b64_events_at_none. intros e He Hc.
  apply in_flat_map in He as (p & Hp & He). apply Hf in He.
  rewrite <- He, Hc in Hp. contradiction.
Qed.

Lemma b64_events_at_flat_map_in (f : nat * nat -> list Event) ps u v :
  (forall p e, In e (f p) -> (x e, y e) = p) ->
  NoDup ps -> In (u, v) ps ->
  events_at u v (flat_map f ps) = f (u, v).
Proof.
  intros Hf Hnd. induction Hnd as [|p ps Hp Hnd IH]; [intros []|].
  rewrite list_elem_of_In in Hp.
  cbn [flat_map]. rewrite b64_events_at_app. intros [->|Hin].
  - rewrite (b64_events_at_flat_map_out f ps u v Hf Hp), app_nil_r.
    apply b64_events_at_all. intros e He. now apply Hf in He.
  - rewrite IH by exact Hin. rewrite b64_events_at_none; [reflexivity|].
    intros e He Hc. apply Hf in He. rewrite <- He, Hc in Hp. contradiction.
Qed.

Lemma b64_update_returns fuel self t_dt A self' evs :
  update fuel self t_dt A = (self', Returns evs) ->
  update_post fuel self t_dt A self' evs.
Proof.
  unfold update.
  destruct (shape_eqb (shape A) (shape (It_array self))) eqn:Es;
    cbn [negb]; [|discriminate].
  destruct ((0 <? t_dt - t self)) eqn:Et; cbn [negb]; [|discriminate].
  unfold pixel_loop. rewrite for_each_nested.
  destruct (for_each _ _ _) as [ls [e|]] eqn:E; [discriminate|].
  intros [= <- <-].
  apply (b64_pixel_list_inv fuel self (t_dt - t self) A (pixels self)) in E
    as (Hshape & Hother & Hin & Hev); [|apply b64_NoDup_pixels].
  cbn [refs current_events app] in *.
  pose proof (b64_events_of_pixel_coords fuel self (t_dt - t self) A
                (reference_values self)) as Hco.
  constructor; cbn [C height width It_array t reference_values]; auto.
  - now apply shape_eqb_eq.
  - intros u v Hu Hv.
    destruct (Hin u v) as (It & It_dt & ref & cs & Hrun & Hlast);
      [now apply b64_in_pixels|].
    exists It, It_dt, ref, cs. split; [exact Hrun|]. split; [exact Hlast|].
    rewrite Hev, b64_events_at_flat_map_in;
      [|exact Hco|apply b64_NoDup_pixels|now apply b64_in_pixels].
    now apply (b64_events_of_pixel_run _ _ _ _ _ _ _ It It_dt ref cs).
  - intros u v Hn. rewrite <- b64_in_pixels in Hn. split; [now apply Hother|].
    rewrite Hev. now apply b64_events_at_flat_map_out.
Qed.

Lemma b64_update_event_pixel fuel self t_dt A self' evs e :
  update_post fuel self t_dt A self' evs -> In e evs ->
  (x e < width self)%nat /\ (y e < height self)%nat /\
  In e (events_at (x e) (y e) evs).
Proof.
  intros P He. assert (Hat : In e (events_at (x e) (y e) evs)).
  { unfold events_at. apply List.filter_In. split; [exact He|].
    now rewrite !Nat.eqb_refl. }
  destruct (le_lt_dec (width self) (x e)) as [Hw|Hw];
    [|destruct (le_lt_dec (height self) (y e)) as [Hh|Hh]].
  - destruct (post_outside _ _ _ _ _ _ P (x e) (y e)) as [_ Hnil]; [lia|].
    rewrite Hnil in Hat. destruct Hat.
  - destruct (post_outside _ _ _ _ _ _ P (x e) (y e)) as [_ Hnil]; [lia|].
    rewrite Hnil in Hat. destruct Hat.
  - auto.
Qed.

Lemma b64_find_crossings_deterministic fuel fuel' C It It_dt p cur acc l l' :
  find_crossings fuel C It It_dt p cur acc = Some l ->
  find_crossings fuel' C It It_dt p cur acc = Some l' ->
  l = l'.
Proof.
  intros H H'.
  apply (b64_find_crossings_fuel_mono _ (Nat.max fuel fuel')) in H; [|lia].
  apply (b64_find_crossings_fuel_mono _ (Nat.max fuel fuel')) in H'; [|lia].
  congruence.
Qed.

Lemma b64_last_candidates n C p cur :
  List.last (candidates n C p cur) cur = candidate n C p cur.
Proof.
  revert cur. induction n as [|n IH]; intros cur; [reflexivity|].
  rewrite b64_candidates_S, last_cons, IH. reflexivity.
Qed.

Lemma b64_pixel_run_functional fuel self A r u v It It_dt ref cs It' It_dt' ref' :
  pixel_run fuel self A r u v It It_dt ref cs ->
  getitem (It_array self) v u = Some It' ->
  getitem A v u = Some It_dt' ->
  getitem r v u = Some ref' ->
  It = It' /\ It_dt = It_dt' /\ ref = ref'.
Proof. intros (H1 & H2 & H3 & _) G1 G2 G3. repeat split; congruence. Qed.

(** ** The scan of one pixel *)

Lemma b64_px_crossings_scan fuel C It It_dt ref :
  (tol <? abs (It - It_dt)) = true ->
  px_crossings fuel C It It_dt ref =
  find_crossings fuel C It It_dt (polarity_of It It_dt) ref [].
Proof. intros H. unfold px_crossings. now rewrite H. Qed.

Lemma b64_px_crossings_skip fuel C It It_dt ref :
  (tol <? abs (It - It_dt)) = false ->
  px_crossings fuel C It It_dt ref = Some [].
Proof. intros H. unfold px_crossings. now rewrite H. Qed.

(** The scan of a pixel that is not skipped. *)
Lemma b64_pixel_scan_inv fuel self A r u v It It_dt ref cs :
  pixel_run fuel self A r u v It It_dt ref cs ->
  (tol <? abs (It - It_dt)) = true ->
  cs = candidates (length cs) (C self) (polarity_of It It_dt) ref /\
  (forall k, (k < length cs)%nat ->
     is_crossing (polarity_of It It_dt) It It_dt
       (candidate (S k) (C self) (polarity_of It It_dt) ref) = true) /\
  is_crossing (polarity_of It It_dt) It It_dt
    (candidate (S (length cs)) (C self) (polarity_of It It_dt) ref) = false.
Proof.
  intros (_ & _ & _ & H) Htol. rewrite b64_px_crossings_scan in H by exact Htol.
  apply b64_find_crossings_inv in H as (n & _ & -> & Hall & Hstop).
  cbn [app]. rewrite b64_length_candidates. auto.
Qed.

(** The candidate after the [n]-th one is one rounded step further. *)
Lemma b64_candidate_next n C p cur :
  candidate (S n) C p cur = candidate n C p cur + float_of_polarity p * C.
Proof.
  revert cur. induction n as [|n IH]; intros cur; [reflexivity|].
  change (candidate (S (S n)) C p cur)
    with (candidate (S n) C p (cur + float_of_polarity p * C)).
  rewrite IH. reflexivity.
Qed.

Lemma b64_reached_candidate C initial p n : forall ref,
  reached C initial ref -> reached C initial (candidate n C p ref).
Proof.
  induction n as [|n IH]; intros ref H; [exact H|].
  cbn [candidate]. apply IH. now constructor.
Qed.




(** ** Totality of [update] *)





(** ** One-pixel arrays *)


(** ** The properties of the specification that depend on rounding *)

(** C1, as the code has it.  For a pixel with stored intensity [I0], new
    intensity [I1], stored reference [ref] and polarity
    [p = +1 if I1 >= I0 else -1], that the call does not skip (the rounded
    difference [|I0 - I1|] is above the double [1e-6]), the events of a call
    of [update] that returns are those of the first [n] candidates, in this
    order, where the [k]-th candidate is [ref] with [p*C] added [k] times,
    every sum rounded to binary64; each of these [n] candidates passes the
    test ([c > I0] and [c <= I1] for [p = +1], [c < I0] and [c >= I1] for
    [p = -1]) and the candidate after them is the first one that fails
    it. *)
Theorem C1_scan_of_pixel fuel self t_dt A self' evs u v I0 I1 ref :
  update fuel self t_dt A = (self', Returns evs) ->
  (u < width self)%nat -> (v < height self)%nat ->
  getitem (It_array self) v u = Some I0 ->
  getitem A v u = Some I1 ->
  getitem (reference_values self) v u = Some ref ->
  (tol <? abs (I0 - I1)) = true ->
  exists n : nat,
    events_at u v evs =
      events_for_px (t self) (t_dt - t self) u v I0 I1
        (candidates n (C self) (polarity_of I0 I1) ref) /\
    length (events_at u v evs) = n /\
    (forall k, (k < n)%nat ->
       is_crossing (polarity_of I0 I1) I0 I1
         (candidate (S k) (C self) (polarity_of I0 I1) ref) = true) /\
    is_crossing (polarity_of I0 I1) I0 I1
      (candidate (S n) (C self) (polarity_of I0 I1) ref) = false.
Proof.
  intros Hup Hu Hv G1 G2 G3 Htol.
  apply b64_update_returns in Hup.
  destruct (post_pixel _ _ _ _ _ _ Hup u v Hu Hv)
    as (It & It_dt & r & cs & Hrun & _ & Hev).
  destruct (b64_pixel_run_functional _ _ _ _ _ _ _ _ _ _ _ _ _ Hrun G1 G2 G3)
    as (-> & -> & ->).
  destruct (b64_pixel_scan_inv _ _ _ _ _ _ _ _ _ _ Hrun Htol)
    as (Hcs & Hall & Hstop).
  exists (length cs). rewrite <- Hcs. repeat split; try assumption.
  rewrite Hev. unfold events_for_px. apply length_map.
Qed.

(** C2, as the code has it.  Every event of a call of [update] that returns
    is the [k]-th event of its pixel for some [k], and its timestamp is
    [t0 + (c - I0) * (t1 - t0) / (I1 - I0)], every operation rounded to
    binary64, for the [k]-th crossing value [c] that the scan of this pixel
    found; the pixel has one event for each crossing value, in the order of
    the scan. *)
Theorem C2_event_timestamp fuel self t_dt A self' evs e :
  update fuel self t_dt A = (self', Returns evs) ->
  In e evs ->
  exists I0 I1 ref cs k c,
    getitem (It_array self) (y e) (x e) = Some I0 /\
    getitem A (y e) (x e) = Some I1 /\
    getitem (reference_values self) (y e) (x e) = Some ref /\
    (tol <? abs (I0 - I1)) = true /\
    find_crossings fuel (C self) I0 I1 (polarity_of I0 I1) ref [] = Some cs /\
    events_at (x e) (y e) evs =
      map (fun c => make_event (x e) (y e)
                      (t self + (c - I0) * (t_dt - t self) / (I1 - I0))
                      (0 <? polarity_of I0 I1)%Z) cs /\
    events_at (x e) (y e) evs !! k = Some e /\
    cs !! k = Some c /\
    ts e = t self + (c - I0) * (t_dt - t self) / (I1 - I0).
Proof.
  intros Hup He. apply b64_update_returns in Hup.
  destruct (b64_update_event_pixel _ _ _ _ _ _ _ Hup He) as (Hu & Hv & Hat).
  destruct (post_pixel _ _ _ _ _ _ Hup _ _ Hu Hv)
    as (I0 & I1 & ref & cs & Hrun & _ & Hev).
  apply list_elem_of_In, list_elem_of_lookup in Hat as [k Hk].
  pose proof Hk as Hk'. rewrite Hev in Hk'. unfold events_for_px in Hk'.
  change (map ?f ?l) with (f <$> l) in Hk'.
  rewrite list_lookup_fmap in Hk'.
  destruct (cs !! k) as [c|] eqn:Hc; [|discriminate].
  injection Hk' as Hk'.
  destruct Hrun as (G1 & G2 & G3 & Hcs).
  destruct (tol <? abs (I0 - I1)) eqn:Htol.
  - rewrite b64_px_crossings_scan in Hcs by exact Htol.
    exists I0, I1, ref, cs, k, c. repeat split; try assumption.
    now rewrite <- Hk'.
  - rewrite b64_px_crossings_skip in Hcs by exact Htol. injection Hcs as <-.
    discriminate.
Qed.

(** C4, as the code has it.  Construction puts every reference value on its
    pixel's initial value, equal to the stored intensity.  A call of [update]
    that returns keeps every reference value reached from the initial value
    of its pixel by adding [+C] or [-C] a whole number of times, every sum
    rounded to binary64.  And for every pixel the call either returns no
    event and keeps the reference, or it returns events, the new reference
    passes the test of the scan (for polarity +1 it is above the old
    intensity and not above the new one; mirrored for -1) and one more step
    from it fails this test. *)
Theorem C4_reference_invariant :
  (forall t0 initial C0 self,
     init t0 initial C0 = Returns self ->
     on_grid initial self /\ reference_values self = It_array self) /\
  (forall fuel initial self t_dt A self' evs,
     update fuel self t_dt A = (self', Returns evs) ->
     on_grid initial self -> on_grid initial self') /\
  (forall fuel self t_dt A self' evs u v I0 I1 ref ref',
     update fuel self t_dt A = (self', Returns evs) ->
     (u < width self)%nat -> (v < height self)%nat ->
     getitem (It_array self) v u = Some I0 ->
     getitem A v u = Some I1 ->
     getitem (reference_values self) v u = Some ref ->
     getitem (reference_values self') v u = Some ref' ->
     (events_at u v evs = [] /\ ref' = ref) \/
     (events_at u v evs <> [] /\
      is_crossing (polarity_of I0 I1) I0 I1 ref' = true /\
      is_crossing (polarity_of I0 I1) I0 I1
        (ref' + float_of_polarity (polarity_of I0 I1) * C self) = false)).
Proof.
  split; [|split].
  - intros t0 initial C0 self. unfold init.
    destruct (negb _); [discriminate|].
    destruct (negb _); [discriminate|]. destruct (negb _); [discriminate|].
    intros [= <-]. split; [|reflexivity].
    intros u v i0 ref G1 G2. cbn [reference_values C] in *.
    rewrite G1 in G2. injection G2 as <-. constructor.
  - intros fuel initial self t_dt A self' evs Hup Hgrid u v i0 ref' G1 G2.
    apply b64_update_returns in Hup. rewrite (post_C _ _ _ _ _ _ Hup).
    destruct (le_lt_dec (width self) u) as [Hu|Hu];
      [|destruct (le_lt_dec (height self) v) as [Hv|Hv]].
    + destruct (post_outside _ _ _ _ _ _ Hup u v) as [Hsame _]; [lia|].
      rewrite Hsame in G2. eauto.
    + destruct (post_outside _ _ _ _ _ _ Hup u v) as [Hsame _]; [lia|].
      rewrite Hsame in G2. eauto.
    + destruct (post_pixel _ _ _ _ _ _ Hup u v Hu Hv)
        as (It & It_dt & ref & cs & Hrun & Hlast & _).
      rewrite Hlast in G2. injection G2 as <-.
      pose proof Hrun as (_ & _ & G3 & Hcs).
      pose proof (Hgrid u v i0 ref G1 G3) as Hreach.
      destruct (tol <? abs (It - It_dt)) eqn:Htol.
      * destruct (b64_pixel_scan_inv _ _ _ _ _ _ _ _ _ _ Hrun Htol) as (E & _ & _).
        rewrite E, b64_last_candidates. now apply b64_reached_candidate.
      * rewrite b64_px_crossings_skip in Hcs by exact Htol. injection Hcs as <-.
        exact Hreach.
  - intros fuel self t_dt A self' evs u v I0 I1 ref ref' Hup Hu Hv G1 G2 G3 G4.
    apply b64_update_returns in Hup.
    destruct (post_pixel _ _ _ _ _ _ Hup u v Hu Hv)
      as (It & It_dt & r & cs & Hrun & Hlast & Hev).
    destruct (b64_pixel_run_functional _ _ _ _ _ _ _ _ _ _ _ _ _ Hrun G1 G2 G3)
      as (-> & -> & ->).
    rewrite Hlast in G4. injection G4 as <-.
    destruct cs as [|c cs]; [left; split; [exact Hev|reflexivity]|].
    right. split; [rewrite Hev; discriminate|].
    destruct (tol <? abs (I0 - I1)) eqn:Htol.
    + destruct (b64_pixel_scan_inv _ _ _ _ _ _ _ _ _ _ Hrun Htol)
        as (E & Hall & Hstop).
      rewrite b64_candidate_next in Hstop.
      rewrite E, b64_last_candidates. split; [|exact Hstop].
      cbn [length]. apply (Hall (length cs)). cbn [length]. lia.
    + destruct Hrun as (_ & _ & _ & Hcs).
      rewrite b64_px_crossings_skip in Hcs by exact Htol. discriminate.
Qed.

(** C5, as the code has it.  With [C = 0.1], a pixel whose stored intensity
    and reference are both [0.5] and whose new intensity is [0.0] gives five
    events of polarity -1.  Their crossing values are the binary64
    differences [0.4], [0.30000000000000004], [0.20000000000000004],
    [0.10000000000000003] and [2^-55]: all of them are strictly above [0.0],
    and the last one becomes the reference.  The timestamps are the
    interpolated ones; for a call from time [0] to time [1] they are
    strictly increasing. *)
Theorem C5_darkening_scenario fuel self t_dt A self' evs u v :
  update fuel self t_dt A = (self', Returns evs) ->
  (u < width self)%nat -> (v < height self)%nat ->
  C self = C_01 ->
  getitem (It_array self) v u = Some 0.5 ->
  getitem (reference_values self) v u = Some 0.5 ->
  getitem A v u = Some 0 ->
  events_at u v evs =
    map (fun c => make_event u v
                    (t self + (c - 0.5) * (t_dt - t self) / (0 - 0.5)) false)
      dark_crossings /\
  length (events_at u v evs) = 5%nat /\
  Forall (fun c => (0 <? c) = true) dark_crossings /\
  getitem (reference_values self') v u = Some 0x1p-55 /\
  (t self = 0 -> t_dt = 1 ->
   StronglySorted (fun e1 e2 => (ts e1 <? ts e2) = true) (events_at u v evs)).
Proof.
  intros Hup Hu Hv HC G1 G3 G2. apply b64_update_returns in Hup.
  destruct (post_pixel _ _ _ _ _ _ Hup u v Hu Hv)
    as (It & It_dt & r & cs & Hrun & Hlast & Hev).
  destruct (b64_pixel_run_functional _ _ _ _ _ _ _ _ _ _ _ _ _ Hrun G1 G2 G3)
    as (-> & -> & ->).
  destruct Hrun as (_ & _ & _ & Hcs). rewrite HC in Hcs.
  rewrite b64_px_crossings_scan in Hcs by (vm_compute; reflexivity).
  assert (Hscan : find_crossings 10 C_01 0.5 0 (polarity_of 0.5 0) 0.5 []
                  = Some dark_crossings) by (vm_compute; reflexivity).
  pose proof (b64_find_crossings_deterministic _ _ _ _ _ _ _ _ _ _ Hcs Hscan)
    as ->.
  split; [exact Hev|]. split; [now rewrite Hev|].
  split; [repeat constructor|]. split; [exact Hlast|].
  intros Ht Ht_dt. rewrite Hev, Ht, Ht_dt.
  vm_compute.
  repeat match goal with
         | |- StronglySorted _ _ => constructor
         | |- Forall _ _ => constructor
         end; reflexivity.
Qed.


(** ** A further property of the reference *)

(** X6.  A call of [update] that returns moves the reference of a pixel by
    as many rounded steps of [C] as it returns events for the pixel, in the
    direction of the polarity: the new reference is the old one with [p*C]
    added [n] times, every sum rounded to binary64, with [n] the number of
    events of the pixel. *)
Theorem X6_reference_displacement fuel self t_dt A self' evs u v I0 I1 ref ref' :
  update fuel self t_dt A = (self', Returns evs) ->
  (u < width self)%nat -> (v < height self)%nat ->
  getitem (It_array self) v u = Some I0 ->
  getitem A v u = Some I1 ->
  getitem (reference_values self) v u = Some ref ->
  getitem (reference_values self') v u = Some ref' ->
  ref' = candidate (length (events_at u v evs)) (C self) (polarity_of I0 I1) ref.
Proof.
  intros Hup Hu Hv G1 G2 G3 G4. apply b64_update_returns in Hup.
  destruct (post_pixel _ _ _ _ _ _ Hup u v Hu Hv)
    as (It & It_dt & r & cs & Hrun & Hlast & Hev).
  destruct (b64_pixel_run_functional _ _ _ _ _ _ _ _ _ _ _ _ _ Hrun G1 G2 G3)
    as (-> & -> & ->).
  rewrite Hlast in G4. injection G4 as <-.
  rewrite Hev. unfold events_for_px. rewrite length_map.
  destruct (tol <? abs (I0 - I1)) eqn:Htol.
  - destruct (b64_pixel_scan_inv _ _ _ _ _ _ _ _ _ _ Hrun Htol) as (E & _ & _).
    rewrite E at 1. apply b64_last_candidates.
  - destruct Hrun as (_ & _ & _ & Hcs).
    rewrite b64_px_crossings_skip in Hcs by exact Htol. injection Hcs as <-.
    reflexivity.
Qed.

(** ** Concrete runs on binary64 numbers *)

(** From [0] to [0.7] with [C = 0.1]: seven events, and the eighth candidate
    fails the test. *)
Lemma C1_witness :
  length (events_at 0 0 rise7_events) = 7%nat /\
  is_crossing 1 0 I_07 (candidate 8 C_01 1 0) = false.
Proof.
  destruct (C1_scan_of_pixel 10 (sim1 0 0 0) 1 (frame1 I_07) (sim1 I_07 I_07 1)
              rise7_events 0 0 0 I_07 0)
    as (n & _ & Hn & _ & Hstop);
    [ vm_compute; reflexivity | vm_compute; lia | vm_compute; lia
    | reflexivity | reflexivity | reflexivity | vm_compute; reflexivity |].
  vm_compute in Hn. subst n. split; [reflexivity|exact Hstop].
Defined.

(** C1 with the count [floor(|I1 - I0| / C)] fails: from [0] to [0.7] with
    [C = 0.1] and the reference at [0], the call returns seven events, the
    seventh for the sum [0.7] of seven rounded additions, while
    [|I1 - I0| / C] is below [7], for the exact values of these doubles and
    for their binary64 quotient [6.999999999999999] alike; so the floor is
    [6].  The sixth crossing value is below [6 * C] as a double. *)
Lemma C1_counterexample :
  update 10 (sim1 0 0 0) 1 (frame1 I_07) =
    (sim1 I_07 I_07 1, Returns rise7_events) /\
  length rise7_events = 7%nat /\
  Qfloor (Qabs (float_to_Q I_07 - float_to_Q 0) / float_to_Q C_01) = 6%Z /\
  (I_07 / C_01 <? 7) = true /\
  (candidate 6 C_01 1 0 <? 0 + 6 * (1 * C_01)) = true.
Proof. repeat split; vm_compute; reflexivity. Qed.

(** From time [0] to time [0.1], from [0] to [0.1] with [C = 0.1]: the one
    event is the first event of its pixel, for the first crossing. *)
Lemma C2_witness :
  exists I0 I1 ref cs k c,
    getitem (frame1 0) 0 0 = Some I0 /\
    getitem (frame1 C_01) 0 0 = Some I1 /\
    getitem (frame1 0) 0 0 = Some ref /\
    (tol <? abs (I0 - I1)) = true /\
    find_crossings 5 C_01 I0 I1 (polarity_of I0 I1) ref [] = Some cs /\
    events_at 0 0 [make_event 0 0 0x1.999999999999bp-4 true] =
      map (fun c => make_event 0 0 (0 + (c - I0) * (C_01 - 0) / (I1 - I0))
                      (0 <? polarity_of I0 I1)%Z) cs /\
    events_at 0 0 [make_event 0 0 0x1.999999999999bp-4 true] !! k =
      Some (make_event 0 0 0x1.999999999999bp-4 true) /\
    cs !! k = Some c /\
    0x1.999999999999bp-4 = 0 + (c - I0) * (C_01 - 0) / (I1 - I0).
Proof.
  apply (C2_event_timestamp 5 (sim1 0 0 0) C_01 (frame1 C_01)
           (sim1 C_01 C_01 C_01)
           [make_event 0 0 0x1.999999999999bp-4 true]
           (make_event 0 0 0x1.999999999999bp-4 true));
    [vm_compute; reflexivity | now left].
Defined.

(** C2 with the timestamp in [[t0, t1]] fails: from time [0] to time [0.1],
    from [0] to [0.1] with [C = 0.1], the one event has the timestamp
    [0.1 * 0.1 / 0.1], which is [0.10000000000000002] on binary64 numbers,
    after the time [0.1] of the new frame. *)
Lemma C2_counterexample :
  update 5 (sim1 0 0 0) C_01 (frame1 C_01) =
    (sim1 C_01 C_01 C_01, Returns [make_event 0 0 0x1.999999999999bp-4 true]) /\
  0 + (C_01 - 0) * (C_01 - 0) / (C_01 - 0) = 0x1.999999999999bp-4 /\
  (C_01 <? 0x1.999999999999bp-4) = true.
Proof. repeat split; vm_compute; reflexivity. Qed.

Lemma C4_witness :
  (on_grid (frame1 0) (sim1 0 0 0) /\
   reference_values (sim1 0 0 0) = It_array (sim1 0 0 0)) /\
  on_grid (frame1 0) (sim1 I_07 I_07 1) /\
  ((events_at 0 0 rise7_events = [] /\ I_07 = 0) \/
   (events_at 0 0 rise7_events <> [] /\
    is_crossing (polarity_of 0 I_07) 0 I_07 I_07 = true /\
    is_crossing (polarity_of 0 I_07) 0 I_07
      (I_07 + float_of_polarity (polarity_of 0 I_07) * C_01) = false)).
Proof.
  destruct C4_reference_invariant as (Hinit & Hgrid & Hnext).
  assert (H0 : on_grid (frame1 0) (sim1 0 0 0) /\
               reference_values (sim1 0 0 0) = It_array (sim1 0 0 0))
    by (apply (Hinit 0 (frame1 0) C_01); vm_compute; reflexivity).
  split; [exact H0|]. split.
  - apply (Hgrid 10%nat (frame1 0) (sim1 0 0 0) 1 (frame1 I_07)
             (sim1 I_07 I_07 1) rise7_events);
      [vm_compute; reflexivity|apply H0].
  - apply (Hnext 10%nat (sim1 0 0 0) 1 (frame1 I_07) (sim1 I_07 I_07 1)
             rise7_events O O 0 I_07 0 I_07);
      [ vm_compute; reflexivity | vm_compute; lia | vm_compute; lia
      | reflexivity | reflexivity | reflexivity | reflexivity ].
Defined.

(** C4 as stated fails in both parts.  One pixel, [C = 0.1], starting at
    [0]: the intensity rises to [0.0999999] (no crossing), then to
    [0.1000005] (a change of [6e-7], skipped), which leaves the level
    [0 + C] strictly between the reference [0] and the stored intensity;
    the third call, to [0.25], returns no event and keeps the reference [0],
    because the first candidate [0.1] is not above the stored intensity, so
    the levels [0.1] and [0.2] are never emitted.  And after one call from
    [0] to [0.85] the reference is the eighth rounded sum
    [0.7999999999999999], strictly between [7 * C] and [8 * C] for the
    exact values of these doubles, and below the double [8 * C]: it is not
    the initial value plus an integer multiple of [C]. *)
Lemma C4_counterexample :
  init 0 (frame1 0) C_01 = Returns (sim1 0 0 0) /\
  update 5 (sim1 0 0 0) 1 (frame1 I_00999999) =
    (sim1 0 I_00999999 1, Returns []) /\
  update 5 (sim1 0 I_00999999 1) 2 (frame1 I_01000005) =
    (sim1 0 I_01000005 2, Returns []) /\
  (0 <? 0 + 1 * C_01) && (0 + 1 * C_01 <? I_01000005) = true /\
  update 5 (sim1 0 I_01000005 2) 3 (frame1 0.25) =
    (sim1 0 0.25 3, Returns []) /\
  (0 + 1 * C_01 <? 0.25) && (0 + 1 * C_01 + 1 * C_01 <? 0.25) = true /\
  update 10 (sim1 0 0 0) 1 (frame1 I_085) =
    (sim1 0x1.9999999999999p-1 I_085 1,
     Returns (events_for_px 0 1 0 0 0 I_085 rise_crossings)) /\
  (7 * float_to_Q C_01 < float_to_Q 0x1.9999999999999p-1)%Q /\
  (float_to_Q 0x1.9999999999999p-1 < 8 * float_to_Q C_01)%Q /\
  (0x1.9999999999999p-1 <? 0 + 8 * (1 * C_01)) = true.
Proof. repeat split; vm_compute; reflexivity. Qed.

(** The darkening from [0.5] to [0] between the times [0] and [1]. *)
Lemma C5_witness :
  length (events_at 0 0 dark_events) = 5%nat /\
  getitem (frame1 0x1p-55) 0 0 = Some 0x1p-55 /\
  StronglySorted (fun e1 e2 => (ts e1 <? ts e2) = true)
    (events_at 0 0 dark_events).
Proof.
  destruct (C5_darkening_scenario 10 (sim1 0.5 0.5 0) 1 (frame1 0)
              (sim1 0x1p-55 0 1) dark_events 0 0)
    as (_ & Hlen & _ & Href & Hsorted);
    [ vm_compute; reflexivity | vm_compute; lia | vm_compute; lia
    | reflexivity | reflexivity | reflexivity | reflexivity |].
  split; [exact Hlen|]. split; [exact Href|].
  apply Hsorted; reflexivity.
Defined.

(** C5 with strictly increasing timestamps for every call fails: between
    the times [1e17] and [1e17 + 16], two doubles that follow each other,
    the five events of the darkening from [0.5] to [0] carry the timestamps
    [1e17], [1e17], [1e17 + 16], [1e17 + 16] and [1e17 + 16].  The second
    crossing value is also not the double [0.3] but the one after it. *)
Lemma C5_counterexample :
  (0 <? t_late - 1e17) = true /\
  update 10 (sim1 0.5 0.5 1e17) t_late (frame1 0) =
    (sim1 0x1p-55 0 t_late, Returns late_events) /\
  map ts late_events = [1e17; 1e17; t_late; t_late; t_late] /\
  map polarity late_events = [false; false; false; false; false] /\
  (0x1.3333333333333p-2 <? 0.5 + -1 * C_01 + -1 * C_01) = true.
Proof. repeat split; vm_compute; reflexivity. Qed.



Lemma X6_witness :
  I_07 = candidate (length (events_at 0 0 rise7_events)) C_01
           (polarity_of 0 I_07) 0.
Proof.
  apply (X6_reference_displacement 10 (sim1 0 0 0) 1 (frame1 I_07)
           (sim1 I_07 I_07 1) rise7_events 0 0 0 I_07 0 I_07);
    [ vm_compute; reflexivity | vm_compute; lia | vm_compute; lia
    | reflexivity | reflexivity | reflexivity | reflexivity ].
Defined.

End Binary64Properties.

(** * Further properties of the simulator *)

Lemma for_each_raises_inv {I St} (Inv : St -> Prop) (xs : list I)
    (body : I -> St -> St * option exn) :
  (forall i s s', In i xs -> Inv s -> body i s = (s', None) -> Inv s') ->
  forall s s' e, Inv s -> for_each xs body s = (s', Some e) ->
  exists i s0, In i xs /\ Inv s0 /\ body i s0 = (s', Some e).
Proof.
  induction xs as [|i xs IH]; intros Hbody s s' e Hs H; simpl in H;
    [discriminate|].
  destruct (body i s) as [s1 [e1|]] eqn:E.
  - injection H as <- <-. exists i, s. split; [now left|]. split; assumption.
  - destruct (IH (fun j a b Hj => Hbody j a b (or_intror Hj)) s1 s' e)
      as (j & s0 & Hj & Hs0 & Hb); [|exact H|].
    + apply (Hbody i s s1); auto. now left.
    + exists j, s0. split; [now right|]. split; assumption.
Qed.

(** The body of the loops changes the state only when it does not raise. *)
Lemma pixel_body_raises fuel self delta_t A u v ls ls' e :
  pixel_body fuel self delta_t A u v ls = (ls', Some e) ->
  ls' = ls /\
  (e = IndexError ->
   getitem (It_array self) v u = None \/ getitem A v u = None \/
   getitem (refs ls) v u = None).
Proof.
  unfold pixel_body.
  destruct (getitem (It_array self) v u) as [It|];
    [|intros [= <- <-]; split; [reflexivity|auto]].
  destruct (getitem A v u) as [It_dt|];
    [|intros [= <- <-]; split; [reflexivity|auto]].
  destruct (getitem (refs ls) v u) as [ref|];
    [|intros [= <- <-]; split; [reflexivity|auto]].
  destruct (Qlt_bool tol (Qabs (It - It_dt))); [|discriminate].
  destruct (find_crossings _ _ _ _ _ _ _) as [[|c cs]|]; try discriminate.
  intros [= <- <-]. split; [reflexivity|discriminate].
Qed.

(** X1.  [__init__] fails, with an AssertionError, exactly when [C] is not
    positive or the initial frame has no row or no column; otherwise the
    simulator it returns has the shape of the frame as height and width, the
    frame as snapshot and as reference grid, and the given time and [C]. *)
Theorem X1_init_rejects initial_time initial_values C0 :
  (init initial_time initial_values C0 = Raises AssertionError <->
   C0 <= 0 \/ fst (shape initial_values) = O \/ snd (shape initial_values) = O)
  /\
  (init initial_time initial_values C0 <> Raises AssertionError <->
   init initial_time initial_values C0 =
     Returns (mk_DvsSimulator C0 (fst (shape initial_values))
                (snd (shape initial_values)) initial_values initial_values
                initial_time)).
Proof.
  unfold init.
  destruct (Qlt_bool 0 C0) eqn:EC; cbn [negb].
  - apply Qlt_bool_iff in EC.
    destruct (fst (shape initial_values)) as [|h] eqn:Eh; cbn [Nat.ltb Nat.leb negb].
    + split; split; intros H; auto; try congruence; discriminate.
    + destruct (snd (shape initial_values)) as [|w] eqn:Ew;
        cbn [Nat.ltb Nat.leb negb].
      * split; split; intros H; auto; try congruence; discriminate.
      * split; split; intros H; try reflexivity; try discriminate.
        destruct H as [H | [H | H]]; [lra|discriminate|discriminate].
  - apply Qlt_bool_false in EC.
    split; split; intros H; auto; try congruence; discriminate.
Qed.

(** X2.  On a well-formed simulator, with a frame that holds as many
    numbers as its shape says, [update] never raises IndexError, and the
    simulator is well-formed after the call, whatever the call did. *)
Theorem X2_update_well_formed fuel self t_dt A :
  wf_sim self -> wf_array A ->
  snd (update fuel self t_dt A) <> Raises IndexError /\
  wf_sim (fst (update fuel self t_dt A)).
Proof.
  intros Hwf HwA. pose proof Hwf as (HC & Hs1 & Hs2 & Hw1 & Hw2).
  unfold update.
  destruct (shape_eqb (shape A) (shape (It_array self))) eqn:Es; cbn [negb];
    [|split; [discriminate|exact Hwf]].
  apply shape_eqb_eq in Es.
  destruct (Qlt_bool 0 (t_dt - t self)); cbn [negb];
    [|split; [discriminate|exact Hwf]].
  unfold pixel_loop. rewrite for_each_nested.
  set (Inv := fun ls : loop_state =>
                shape (refs ls) = (height self, width self) /\
                wf_array (refs ls)).
  assert (Hstep : forall (p : nat * nat) s s', In p (pixels self) -> Inv s ->
            pixel_body fuel self (t_dt - t self) A (fst p) (snd p) s = (s', None) ->
            Inv s').
  { intros p s s' _ [Hs Hw] Hb.
    apply pixel_body_inv in Hb as (? & ? & ? & cs & _ & _ & _ & _ & ->).
    split; cbn [refs]; [now rewrite shape_store_last|now apply wf_array_store_last]. }
  assert (H0 : Inv (mk_loop_state [] (reference_values self))) by now split.
  destruct (for_each _ _ _) as [ls [e|]] eqn:E; cbn [fst snd].
  - apply (for_each_raises_inv Inv) in E as ([u v] & s0 & Hin & [Hs Hw] & Hb);
      [|exact Hstep|exact H0].
    cbn [fst snd] in Hb. apply in_pixels in Hin as [Hu Hv].
    apply pixel_body_raises in Hb as [-> Hidx]. split.
    + intros [= ->]. destruct Hidx as [G | [G | G]]; [reflexivity| | |].
      * destruct (getitem_wf (It_array self) v u) as [q Hq];
          [exact Hw1|rewrite Hs1; exact Hv|rewrite Hs1; exact Hu|congruence].
      * destruct (getitem_wf A v u) as [q Hq];
          [exact HwA|rewrite Es, Hs1; exact Hv|rewrite Es, Hs1; exact Hu|congruence].
      * destruct (getitem_wf (refs s0) v u) as [q Hq];
          [exact Hw|rewrite Hs; exact Hv|rewrite Hs; exact Hu|congruence].
    + unfold wf_sim, set_reference_values.
      cbn [C It_array reference_values height width]. repeat split; assumption.
  - apply (for_each_invariant Inv) in E as [Hs Hw]; [|exact Hstep|exact H0].
    split; [discriminate|]. unfold wf_sim.
    cbn [C It_array reference_values height width].
    repeat split; try assumption. congruence.
Qed.

(** X3.  The events that [update] returns are grouped by pixel, in the order
    of the loops (column by column, rows within a column), and every event
    is at a pixel of the grid. *)
Theorem X3_events_by_pixel fuel self t_dt A self' evs :
  update fuel self t_dt A = (self', Returns evs) ->
  evs = flat_map (fun p => events_at (fst p) (snd p) evs) (pixels self) /\
  Forall (fun e => (x e < width self)%nat /\ (y e < height self)%nat) evs.
Proof.
  intros Hup. apply update_returns in Hup. split.
  - rewrite (post_events _ _ _ _ _ _ Hup) at 1.
    apply flat_map_ext_in. intros [u v] Hin. cbn [fst snd].
    rewrite (post_events _ _ _ _ _ _ Hup) at 1.
    symmetry. apply events_at_flat_map_in; [|apply NoDup_pixels|exact Hin].
    apply events_of_pixel_coords.
  - apply List.Forall_forall. intros e He.
    destruct (update_event_pixel _ _ _ _ _ _ _ Hup He) as (Hu & Hv & _). auto.
Qed.

(** A step that is not skipped changes the intensity. *)
Lemma not_skipped_differs It It_dt :
  tol < Qabs (It_dt - It) ->
  (It <= It_dt -> It < It_dt) /\ (It_dt <= It -> It_dt < It).
Proof.
  intros Htol. assert (Ht : 0 < tol) by reflexivity.
  split; intros Hle; apply Qnot_le_lt; intros Hge;
    assert (E : It_dt - It == 0) by lra;
    rewrite E in Htol; change (Qabs 0) with 0 in Htol; lra.
Qed.

(** X5.  Every event that [update] returns has the polarity of the change of
    its pixel: [true] when the new intensity is above the stored one, [false]
    when it is below; the two are never equal at a pixel with an event. *)
Theorem X5_event_polarity fuel self t_dt A self' evs e :
  update fuel self t_dt A = (self', Returns evs) ->
  In e evs ->
  exists I0 I1,
    getitem (It_array self) (y e) (x e) = Some I0 /\
    getitem A (y e) (x e) = Some I1 /\
    (polarity e = true -> I0 < I1) /\
    (polarity e = false -> I1 < I0).
Proof.
  intros Hup He. apply update_returns in Hup.
  destruct (update_event_pixel _ _ _ _ _ _ _ Hup He) as (Hu & Hv & Hat).
  destruct (post_pixel _ _ _ _ _ _ Hup _ _ Hu Hv)
    as (I0 & I1 & ref & cs & Hrun & _ & Hev).
  rewrite Hev in Hat. unfold events_for_px in Hat.
  apply in_map_iff in Hat as (c & <- & Hc). cbn [x y polarity] in *.
  assert (Htol : tol < Qabs (I1 - I0)).
  { destruct (Qlt_le_dec tol (Qabs (I1 - I0))) as [Hlt|Hle]; [exact Hlt|].
    destruct Hrun as (_ & _ & _ & H).
    rewrite px_crossings_skip in H by exact Hle. injection H as <-. destruct Hc. }
  destruct (not_skipped_differs I0 I1 Htol) as [Hup' Hdown].
  destruct Hrun as (G1 & G2 & _ & _).
  exists I0, I1. split; [exact G1|]. split; [exact G2|].
  destruct (polarity_of_cases I0 I1) as [[Hle Hp] | [Hlt Hp]]; rewrite Hp;
    split; intros Hpol; try discriminate; auto.
Qed.

(** X8.  A pixel whose reference is a whole step [C] or more behind the
    stored intensity, in the direction of the change, gets no event and
    keeps its reference: the first candidate of the scan is not beyond the
    stored intensity, and the scan stops there.  (Rising: [ref + C <= I0];
    falling: [I0 <= ref - C].) *)
Theorem X8_reference_left_behind fuel self t_dt A self' evs u v I0 I1 ref :
  update fuel self t_dt A = (self', Returns evs) ->
  (u < width self)%nat -> (v < height self)%nat ->
  getitem (It_array self) v u = Some I0 ->
  getitem A v u = Some I1 ->
  getitem (reference_values self) v u = Some ref ->
  (I0 <= I1 /\ ref + C self <= I0) \/ (I1 < I0 /\ I0 <= ref - C self) ->
  events_at u v evs = [] /\
  getitem (reference_values self') v u = Some ref.
Proof.
  intros Hup Hu Hv G1 G2 G3 Hbehind. apply update_returns in Hup.
  destruct (post_pixel _ _ _ _ _ _ Hup u v Hu Hv)
    as (It & It_dt & r & cs & Hrun & Hlast & Hev).
  destruct (pixel_run_functional _ _ _ _ _ _ _ _ _ _ _ _ _ Hrun G1 G2 G3)
    as (-> & -> & ->).
  assert (cs = []) as ->.
  { destruct (Qlt_le_dec tol (Qabs (I1 - I0))) as [Htol|Htol].
    - destruct (pixel_scan_inv _ _ _ _ _ _ _ _ _ _ Hrun Htol) as (_ & Hall & _).
      destruct cs as [|c cs]; [reflexivity|exfalso].
      pose proof (Hall O ltac:(simpl; lia)) as Hfirst.
      pose proof (candidate_S_closed O (C self) (polarity_of I0 I1) ref) as E1.
      set (c1 := candidate 1 (C self) (polarity_of I0 I1) ref) in *.
      change (inject_Z (Z.of_nat 0 + 1)) with 1 in E1.
      unfold crossing_test in *. polarity_cases I0 I1; lra.
    - destruct Hrun as (_ & _ & _ & Hcs).
      rewrite px_crossings_skip in Hcs by exact Htol. congruence. }
  split; [exact Hev|exact Hlast].
Qed.

(** * Properties of the main loop *)

Lemma batch_events_app bs b :
  batch_events (bs ++ [b]) = batch_events bs ++ ea_events b.
Proof.
  unfold batch_events. rewrite map_app, concat_app. simpl.
  now rewrite app_nil_r.
Qed.

(** One frame of events, by cases on the publishing test. *)
Lemma frame_events_cases delta_event cw ch wb timestamp current d :
  let d' := frame_events delta_event cw ch wb timestamp current d in
  (delta_event < timestamp - last_pub_event_timestamp d /\
   d' = mk_driver_state [] timestamp
          (published d ++
           [mk_EventArray timestamp cw ch (sorted_by_ts (events d ++ current))])
          (if wb
           then bag d ++
                [mk_EventArray timestamp cw ch
                   (sorted_by_ts (events d ++ current))]
           else bag d)) \/
  (timestamp - last_pub_event_timestamp d <= delta_event /\
   d' = mk_driver_state (events d ++ current) (last_pub_event_timestamp d)
          (published d) (bag d)).
Proof.
  cbv zeta. unfold frame_events, publish_events.
  cbn [events last_pub_event_timestamp published bag].
  destruct (Qlt_bool delta_event (timestamp - last_pub_event_timestamp d)) eqn:E.
  - left. apply Qlt_bool_iff in E. split; [exact E|reflexivity].
  - right. apply Qlt_bool_false in E. split; [exact E|reflexivity].
Qed.

(** The loop body, by cases on what [update] does. *)
Lemma loop_body_cases fuel delta_event delta_image cw ch wb init_time frame s :
  let r := loop_body fuel delta_event delta_image cw ch wb init_time frame s in
  (exists sim' evs,
     update fuel (sim s) (fst frame) (snd frame) = (sim', Returns evs) /\
     snd r = None /\ sim (fst r) = sim' /\
     drv (fst r) = frame_events delta_event cw ch wb (fst frame) evs (drv s)) \/
  (exists sim' e,
     update fuel (sim s) (fst frame) (snd frame) = (sim', Raises e) /\
     snd r = Some e /\ sim (fst r) = sim' /\ drv (fst r) = drv s).
Proof.
  cbv zeta. unfold loop_body.
  destruct (update fuel (sim s) (fst frame) (snd frame)) as [sim' [evs|e]].
  - left. exists sim', evs. auto.
  - right. exists sim', e. auto.
Qed.

(** X9.  The loop loses no event and invents none: whenever it stops, the
    events of the published batches together with the events still in the
    buffer are, up to order, the events that were there before plus those
    the calls of [update] returned. *)
Theorem X9_events_conserved fuel delta_event delta_image cw ch wb init_time
    frames s :
  let s' := fst (main_loop fuel delta_event delta_image cw ch wb init_time
                   frames s) in
  Permutation
    (batch_events (published (drv s')) ++ events (drv s'))
    (batch_events (published (drv s)) ++ events (drv s)
     ++ produced fuel frames (sim s)).
Proof.
  cbv zeta. unfold main_loop. revert s.
  induction frames as [|frame frames IH]; intros s.
  - simpl. now rewrite app_nil_r.
  - cbn [for_each produced].
    destruct (loop_body_cases fuel delta_event delta_image cw ch wb init_time
                frame s) as [(sim' & evs & Hup & Hr & Hsim & Hdrv)
                            |(sim' & e & Hup & Hr & Hsim & Hdrv)];
      destruct (loop_body _ _ _ _ _ _ _ frame s) as [s1 r] eqn:E;
      cbn [fst snd] in Hr, Hsim, Hdrv; subst r; rewrite Hup.
    + rewrite IH, Hsim, Hdrv.
      destruct (frame_events_cases delta_event cw ch wb (fst frame) evs (drv s))
        as [[_ ->] | [_ ->]]; cbn [events published].
      * rewrite batch_events_app. cbn [ea_events].
        rewrite <- sorted_by_ts_perm, <- !app_assoc. reflexivity.
      * rewrite <- !app_assoc. reflexivity.
    + cbn [fst]. rewrite Hdrv, app_nil_r. reflexivity.
Qed.

Lemma for_each_fst_invariant {I St} (Inv : St -> Prop) (xs : list I)
    (body : I -> St -> St * option exn) :
  (forall i s, In i xs -> Inv s -> Inv (fst (body i s))) ->
  forall s, Inv s -> Inv (fst (for_each xs body s)).
Proof.
  induction xs as [|i xs IH]; intros Hbody s Hs; simpl; [exact Hs|].
  pose proof (Hbody i s (or_introl eq_refl) Hs) as H1.
  destruct (body i s) as [s1 [e|]]; [exact H1|].
  apply IH; [|exact H1]. intros j a Hj. apply Hbody. now right.
Qed.

Lemma main_start_inv init_time init_sensor cp s :
  main_start init_time init_sensor cp = Returns s ->
  t (sim s) = init_time /\
  drv s = mk_driver_state [] init_time [] [] /\
  last_pub_img_timestamp s = init_time /\ image_slots s = [].
Proof.
  unfold main_start.
  destruct (init init_time init_sensor cp) as [sim0|e] eqn:E; [|discriminate].
  intros [= <-]. cbn [sim drv last_pub_img_timestamp image_slots].
  repeat split. unfold init in E.
  destruct (negb _); [discriminate|]. destruct (negb _); [discriminate|].
  destruct (negb _); [discriminate|]. now injection E as <-.
Qed.

Lemma spaced_app delta t0 l x :
  spaced delta t0 l -> delta < x - List.last l t0 -> spaced delta t0 (l ++ [x]).
Proof.
  revert t0. induction l as [|a l IH]; intros t0 Hs Hx.
  - simpl in *. auto.
  - rewrite last_cons in Hx. destruct Hs as [Ha Hs]. simpl. split; [exact Ha|].
    now apply IH.
Qed.

Lemma frame_events_spaced delta_event cw ch wb init_time timestamp current d :
  stamps_spaced delta_event init_time d ->
  stamps_spaced delta_event init_time
    (frame_events delta_event cw ch wb timestamp current d).
Proof.
  intros [Hs Hl].
  destruct (frame_events_cases delta_event cw ch wb timestamp current d)
    as [[Hlt ->] | [_ ->]]; unfold stamps_spaced;
    cbn [published last_pub_event_timestamp]; [|now split].
  rewrite map_app. cbn [map stamp]. split.
  - apply spaced_app; [exact Hs|]. now rewrite <- Hl.
  - now rewrite List.last_last.
Qed.

(** X10.  The batches are published at most once per publish interval:
    from the start of the program, the stamp of every published batch is
    more than [delta_event] after the stamp of the batch before it, and the
    first one more than [delta_event] after the initial time. *)
Theorem X10_batches_spaced fuel delta_event delta_image cw ch wb init_time
    init_sensor cp frames s0 :
  main_start init_time init_sensor cp = Returns s0 ->
  spaced delta_event init_time
    (map stamp
       (published
          (drv (fst (main_loop fuel delta_event delta_image cw ch wb
                       init_time frames s0))))).
Proof.
  intros Hstart. apply main_start_inv in Hstart as (_ & Hd & _ & _).
  unfold main_loop.
  apply (for_each_fst_invariant
           (fun s => stamps_spaced delta_event init_time (drv s))).
  - intros frame s _ Hs.
    destruct (loop_body_cases fuel delta_event delta_image cw ch wb init_time
                frame s) as [(sim' & evs & _ & _ & _ & ->)
                            |(sim' & e & _ & _ & _ & ->)];
      [now apply frame_events_spaced|exact Hs].
  - rewrite Hd. split; [exact I|reflexivity].
Qed.

(** X11.  Every batch is handed to the publisher, and to the bag exactly
    when [write_to_bag] is set: at any point of the loop the bag holds the
    published batches, or nothing. *)
Theorem X11_bag_mirrors_published fuel delta_event delta_image cw ch wb
    init_time init_sensor cp frames s0 :
  main_start init_time init_sensor cp = Returns s0 ->
  bag (drv (fst (main_loop fuel delta_event delta_image cw ch wb
                   init_time frames s0))) =
  if wb
  then published (drv (fst (main_loop fuel delta_event delta_image cw ch wb
                              init_time frames s0)))
  else [].
Proof.
  intros Hstart. apply main_start_inv in Hstart as (_ & Hd & _ & _).
  unfold main_loop.
  apply (for_each_fst_invariant
           (fun s => bag (drv s) = if wb then published (drv s) else [])).
  - intros frame s _ Hs.
    destruct (loop_body_cases fuel delta_event delta_image cw ch wb init_time
                frame s) as [(sim' & evs & _ & _ & _ & ->)
                            |(sim' & e & _ & _ & _ & ->)]; [|exact Hs].
    destruct (frame_events_cases delta_event cw ch wb (fst frame) evs (drv s))
      as [[_ ->] | [_ ->]]; cbn [published bag]; [|exact Hs].
    rewrite Hs. now destruct wb.
  - rewrite Hd. now destruct wb.
Qed.

(** X13.  While no call of [update] raises, the image branch is entered at
    most once per image interval: the timestamps at which it is entered are
    each more than [delta_image] after the one before, the first one more
    than [delta_image] after the initial time.  (The test
    [timestamp == init_time] cannot hold for a frame that [update]
    accepts.) *)
Theorem X13_images_spaced fuel delta_event delta_image cw ch wb init_time
    init_sensor cp frames s0 s' :
  main_start init_time init_sensor cp = Returns s0 ->
  main_loop fuel delta_event delta_image cw ch wb init_time frames s0
    = (s', None) ->
  spaced delta_image init_time (image_slots s').
Proof.
  intros Hstart Hrun. apply main_start_inv in Hstart as (Ht & _ & Himg & Hslots).
  assert (H : images_spaced delta_image init_time s').
  { revert Hrun. unfold main_loop. apply for_each_invariant.
    - intros frame s s1 _ (Hle & Hlast & Hsp) Hbody. unfold loop_body in Hbody.
      destruct (update fuel (sim s) (fst frame) (snd frame))
        as [sim' [evs|e]] eqn:Hup; [|discriminate].
      injection Hbody as <-. apply update_returns in Hup.
      pose proof (post_t _ _ _ _ _ _ Hup) as Ht'.
      pose proof (post_delta _ _ _ _ _ _ Hup) as Hd.
      unfold images_spaced. cbn [sim last_pub_img_timestamp image_slots].
      rewrite Ht'. split; [lra|].
      unfold image_due.
      destruct (Qlt_bool delta_image (fst frame - last_pub_img_timestamp s)) eqn:E1;
        cbn [orb].
      + apply Qlt_bool_iff in E1. split; [now rewrite List.last_last|].
        apply spaced_app; [exact Hsp|]. now rewrite <- Hlast.
      + destruct (Qeq_bool (fst frame) init_time) eqn:E2; [|now split].
        apply Qeq_bool_iff in E2. lra.
    - unfold images_spaced. rewrite Ht, Himg, Hslots. simpl.
      split; [apply Qle_refl|]. now split. }
  apply H.
Qed.

(** * Further properties of the scan on binary64 numbers *)

(** X14.  On binary64 numbers the scan never stops when adding the step to
    the candidate gives the candidate back (the step is below half the
    spacing of the doubles around it) and the candidate is in the range of
    the test: no amount of fuel gives a result. *)
Theorem X14_binary64_absorption fuel C0 It It_dt polarity0 cur acc :
  (cur + Binary64.float_of_polarity polarity0 * C0)%float = cur ->
  Binary64.is_crossing polarity0 It It_dt cur = true ->
  Binary64.find_crossings fuel C0 It It_dt polarity0 cur acc = None.
Proof.
  intros Habs Htest. revert acc.
  induction fuel as [|fuel IH]; intros acc; [reflexivity|].
  cbn [Binary64.find_crossings]. rewrite Habs, Htest. apply IH.
Qed.

(** * [make_camera_msg] *)

(** X15.  The camera message is that of a pinhole camera without distortion:
    its projection matrix [P] is the intrinsic matrix [K], row by row, with
    a zero fourth column, [D] is zero, and width and height are those of the
    camera. *)
Theorem X15_camera_projection cam :
  exists r1 r2 r3,
    K (make_camera_msg cam) = r1 ++ r2 ++ r3 /\
    length r1 = 3%nat /\ length r2 = 3%nat /\ length r3 = 3%nat /\
    P (make_camera_msg cam) = (r1 ++ [0]) ++ (r2 ++ [0]) ++ (r3 ++ [0]) /\
    D (make_camera_msg cam) = [0; 0; 0; 0] /\
    info_width (make_camera_msg cam) = cam_width cam /\
    info_height (make_camera_msg cam) = cam_height cam.
Proof.
  destruct cam as [w h [fx fy] [cx cy]]. unfold make_camera_msg. cbn.
  exists [fx; 0; cx], [0; fy; cy], [0; 0; 1]. repeat split.
Qed.

(** * Concrete runs, continued *)

Lemma ex_sim_wf : wf_sim ex_sim.
Proof. unfold wf_sim. repeat split; reflexivity. Defined.

Lemma X2_witness :
  snd (update 10 ex_sim 1 ex_frame) <> Raises IndexError /\
  wf_sim (fst (update 10 ex_sim 1 ex_frame)).
Proof.
  apply (X2_update_well_formed 10 ex_sim 1 ex_frame);
    [exact ex_sim_wf | reflexivity].
Defined.

Lemma X3_witness :
  ex_events =
    flat_map (fun p => events_at (fst p) (snd p) ex_events) (pixels ex_sim) /\
  Forall (fun e => (x e < width ex_sim)%nat /\ (y e < height ex_sim)%nat)
    ex_events.
Proof.
  apply (X3_events_by_pixel 10 ex_sim 1 ex_frame ex_sim' ex_events).
  vm_compute. reflexivity.
Defined.

Lemma X5_witness :
  exists I0 I1,
    getitem (It_array ex_sim) 0 0 = Some I0 /\
    getitem ex_frame 0 0 = Some I1 /\
    (true = true -> I0 < I1) /\
    (true = false -> I1 < I0).
Proof.
  apply (X5_event_polarity 10 ex_sim 1 ex_frame ex_sim' ex_events
           (make_event 0 0 (30 # 100) true));
    [vm_compute; reflexivity | left; reflexivity].
Defined.

(** The reference [0] is a whole step behind the stored intensity
    [0.1000005]: the rise to [0.25] gives no event. *)
Lemma X8_witness :
  events_at 0 0 [] = [] /\
  getitem (reference_values cx4_s3) 0 0 = Some 0.
Proof.
  apply (X8_reference_left_behind 5 cx4_s2 3 cx4_f3 cx4_s3 [] 0 0
           (1000005 # 10000000) (1 # 4) 0);
    [ vm_compute; reflexivity | vm_compute; lia | vm_compute; lia
    | reflexivity | reflexivity | reflexivity | ].
  left. split; vm_compute; discriminate.
Defined.

Lemma ex_main_start : main_start 0 ex_initial (15 # 100) = Returns ex_start.
Proof. reflexivity. Defined.

Lemma ex_main_loop :
  main_loop 10 (1 # 2) (1 # 2) 2 1 true 0 ex_frames ex_start = (ex_end, None).
Proof. vm_compute. reflexivity. Defined.

Lemma X10_witness :
  spaced (1 # 2) 0
    (map stamp
       (published
          (drv (fst (main_loop 10 (1 # 2) (1 # 2) 2 1 true 0 ex_frames
                       ex_start))))).
Proof.
  apply (X10_batches_spaced 10 (1 # 2) (1 # 2) 2 1 true 0 ex_initial
           (15 # 100) ex_frames ex_start).
  reflexivity.
Defined.

Lemma X11_witness :
  bag (drv (fst (main_loop 10 (1 # 2) (1 # 2) 2 1 true 0 ex_frames ex_start)))
  = published
      (drv (fst (main_loop 10 (1 # 2) (1 # 2) 2 1 true 0 ex_frames ex_start))).
Proof.
  apply (X11_bag_mirrors_published 10 (1 # 2) (1 # 2) 2 1 true 0 ex_initial
           (15 # 100) ex_frames ex_start).
  reflexivity.
Defined.

Lemma X13_witness : spaced (1 # 2) 0 (image_slots ex_end).
Proof.
  apply (X13_images_spaced 10 (1 # 2) (1 # 2) 2 1 true 0 ex_initial
           (15 # 100) ex_frames ex_start ex_end);
    [reflexivity | vm_compute; reflexivity].
Defined.

(** The run publishes two batches, stamped 1 and 2: the three events of the
    first frame, then the three of the way back. *)
Lemma ex_run_batches :
  map stamp (published (drv ex_end)) = [1; 2] /\
  map (fun b => length (ea_events b)) (published (drv ex_end)) = [3; 3]%nat /\
  events (drv ex_end) = [] /\ image_slots ex_end = [1; 2].
Proof. repeat split. Qed.

(** A reference of [1e17] with stored intensity [5e16] and new intensity
    [2e17]: [1e17 + 0.1] is [1e17] again, and the scan does not stop. *)
Lemma X14_witness :
  Binary64.find_crossings 1000 Binary64.C_01 5e16 2e17 1 1e17 [] = None.
Proof.
  apply X14_binary64_absorption; vm_compute; reflexivity.
Defined.
